(** * Batched graph construction of [GraphASTEncoder] (model/encoder.py)

    A shallow embedding of the index bookkeeping performed by
    [GraphASTEncoder]: the assignment of combined ids to the nodes of a
    batch of syntax trees, the adjacency relations built over them, the
    initial feature indices, and the unpacking of the flattened node
    encodings into a padded, masked tensor. *)

From stdpp Require Import base list sorting strings gmap.
From Stdlib Require Import ZArith Lia.

Local Open Scope Z_scope.
Local Open Scope nat_scope.

(** ** Exceptions and fallible computations *)

(** The built-in exceptions the encoder can raise by itself. *)
Inductive exn := KeyError | ValueError | IndexError.

Inductive result (A : Type) :=
  | Ok (a : A)
  | Raise (e : exn).
Arguments Ok {A} a.
Arguments Raise {A} e.

#[export] Instance result_ret : MRet result := fun A a => Ok a.
#[export] Instance result_bind : MBind result := fun A B f c =>
  match c with
  | Ok a => f a
  | Raise e => Raise e
  end.

(** [for x in xs: st = body(st, x)], where the body may raise. *)
Fixpoint for_each {A S : Type} (body : S → A → result S) (xs : list A) (st : S)
  : result S :=
  match xs with
  | [] => Ok st
  | x :: xs' => st' ← body st x; for_each body xs' st'
  end.

(** [[f(x) for x in xs]], where [f] may raise. *)
Fixpoint list_comp {A B : Type} (f : A → result B) (xs : list A) : result (list B) :=
  match xs with
  | [] => Ok []
  | x :: xs' => y ← f x; ys ← list_comp f xs'; Ok (y :: ys)
  end.

(** ** [collections.OrderedDict]

    An insertion-ordered dictionary is kept as the list of its items, in
    insertion order; a key occurs at most once. *)
Module OrderedDict.
Section ops.
Context {K V : Type} `{EqDecision K}.

(** [d.get(k)]: [None] when the key is absent. *)
Fixpoint get (k : K) (d : list (K * V)) : option V :=
  match d with
  | [] => None
  | (k', v) :: d' => if decide (k' = k) then Some v else get k d'
  end.

(** [d[k]]: raises [KeyError] when the key is absent. *)
Definition getitem (k : K) (d : list (K * V)) : result V :=
  match get k d with
  | Some v => Ok v
  | None => Raise KeyError
  end.

(** [d[k] = v]: an existing key keeps its position. *)
Fixpoint setitem (k : K) (v : V) (d : list (K * V)) : list (K * V) :=
  match d with
  | [] => [(k, v)]
  | (k', v') :: d' =>
      if decide (k' = k) then (k', v) :: d' else (k', v') :: setitem k v d'
  end.

(** [d.setdefault(k, v)]: the value returned and the dictionary after. *)
Definition setdefault (k : K) (v : V) (d : list (K * V)) : V * list (K * V) :=
  match get k d with
  | Some v' => (v', d)
  | None => (v, d ++ [(k, v)])
  end.

(** [OrderedDict(pairs)]. *)
Definition of_pairs (pairs : list (K * V)) : list (K * V) :=
  fold_left (fun d kv => setitem kv.1 kv.2 d) pairs [].

Definition items (d : list (K * V)) : list (K * V) := d.
Definition keys (d : list (K * V)) : list K := d.*1.
Definition values (d : list (K * V)) : list V := d.*2.
End ops.
End OrderedDict.

(** ** The consumed interfaces *)

(** Modelled from the spec: the tree nodes of utils/ast.py, of which the
    encoder reads [node_id], [is_variable_node], [var_id] and [node_type]. *)
Record SyntaxNode := {
  node_id : Z;
  is_variable_node : bool;
  var_id : string;
  node_type : string;
}.

(** Modelled from the spec: [AbstractSyntaxTree] of utils/ast.py, of which
    the encoder reads the parent/child edges, the adjacent terminal pairs,
    the lookup from local id to node, and the node count. *)
Record AbstractSyntaxTree := {
  adjacency_list : list (SyntaxNode * SyntaxNode);
  adjacent_terminal_nodes : list (Z * Z);
  id_to_node : gmap Z SyntaxNode;
  size : nat;
}.

(** Modelled from the spec: [AdjacencyList] of model/gnn.py, a directed
    edge list together with the node count it ranges over. *)
Record AdjacencyList := {
  node_num : nat;
  adj_list : list (nat * nat);
  adj_device : option string;
}.

(** A key [(ast_id, node_id)] of [tree_node2batch_graph_node]. *)
Abbreviation tree_node := (nat * Z)%type.

(** ** [get_batched_adjacency_lists] *)

(** The local variables mutated by the two nested loops. *)
Record BatchState := {
  tree_node2batch_graph_node : list (tree_node * nat);
  ast_adj_list : list (nat * nat);
  reversed_ast_adj_list : list (nat * nat);
  terminal_nodes_adj_list : list (nat * nat);
  reversed_terminal_nodes_adj_list : list (nat * nat);
}.

Definition initial_state : BatchState :=
  {| tree_node2batch_graph_node := [];
     ast_adj_list := [];
     reversed_ast_adj_list := [];
     terminal_nodes_adj_list := [];
     reversed_terminal_nodes_adj_list := [] |}.

(** Body of [for prev_node, succ_node in syntax_tree.adjacency_list]. *)
Definition edge_body (ast_id : nat) (st : BatchState)
    (edge : SyntaxNode * SyntaxNode) : BatchState :=
  let prev_node_id := node_id edge.1 in
  let succ_node_id := node_id edge.2 in
  let d0 := tree_node2batch_graph_node st in
  let '(node_s_batch_id, d1) :=
    OrderedDict.setdefault (ast_id, prev_node_id) (length d0) d0 in
  let '(node_t_batch_id, d2) :=
    OrderedDict.setdefault (ast_id, succ_node_id) (length d1) d1 in
  {| tree_node2batch_graph_node := d2;
     ast_adj_list := ast_adj_list st ++ [(node_s_batch_id, node_t_batch_id)];
     reversed_ast_adj_list :=
       reversed_ast_adj_list st ++ [(node_t_batch_id, node_s_batch_id)];
     terminal_nodes_adj_list := terminal_nodes_adj_list st;
     reversed_terminal_nodes_adj_list := reversed_terminal_nodes_adj_list st |}.

(** Body of [for node_id, succ_node_id in syntax_tree.adjacent_terminal_nodes]. *)
Definition terminal_body (ast_id : nat) (st : BatchState) (pair : Z * Z)
  : result BatchState :=
  let d := tree_node2batch_graph_node st in
  cur_token_batch_id ← OrderedDict.getitem (ast_id, pair.1) d;
  next_token_batch_id ← OrderedDict.getitem (ast_id, pair.2) d;
  Ok {| tree_node2batch_graph_node := d;
        ast_adj_list := ast_adj_list st;
        reversed_ast_adj_list := reversed_ast_adj_list st;
        terminal_nodes_adj_list :=
          terminal_nodes_adj_list st ++ [(cur_token_batch_id, next_token_batch_id)];
        reversed_terminal_nodes_adj_list :=
          reversed_terminal_nodes_adj_list st
            ++ [(next_token_batch_id, cur_token_batch_id)] |}.

(** Body of [for ast_id, syntax_tree in enumerate(asts)]. *)
Definition tree_body (ast_id : nat) (st : BatchState)
    (syntax_tree : AbstractSyntaxTree) : result BatchState :=
  let st1 := fold_left (edge_body ast_id) (adjacency_list syntax_tree) st in
  for_each (terminal_body ast_id) (adjacent_terminal_nodes syntax_tree) st1.

(** The outer loop, started at index [ast_id]. *)
Fixpoint batch_loop (ast_id : nat) (asts : list AbstractSyntaxTree)
    (st : BatchState) : result BatchState :=
  match asts with
  | [] => Ok st
  | syntax_tree :: rest =>
      st' ← tree_body ast_id st syntax_tree;
      batch_loop (S ast_id) rest st'
  end.

(** What the function returns: [adj_lists], [tree_node2batch_graph_node]
    and [batch_graph_node2tree_node]. *)
Definition get_batched_adjacency_lists (self_device : string)
    (asts : list AbstractSyntaxTree)
  : result (list AdjacencyList * list (tree_node * nat) * list (nat * tree_node)) :=
  st ← batch_loop 0 asts initial_state;
  let all_nodes_num := length (tree_node2batch_graph_node st) in
  let adj_lists :=
    [ {| node_num := all_nodes_num; adj_list := ast_adj_list st;
         adj_device := Some self_device |};
      {| node_num := all_nodes_num; adj_list := reversed_ast_adj_list st;
         adj_device := Some self_device |} ] in
  let adj_lists :=
    match terminal_nodes_adj_list st with
    | [] => adj_lists
    | _ :: _ =>
        adj_lists ++
        [ {| node_num := all_nodes_num; adj_list := terminal_nodes_adj_list st;
             adj_device := None |};
          {| node_num := all_nodes_num;
             adj_list := reversed_terminal_nodes_adj_list st;
             adj_device := None |} ]
    end in
  let batch_graph_node2tree_node :=
    OrderedDict.of_pairs
      (map (fun kv => (kv.2, kv.1))
           (OrderedDict.items (tree_node2batch_graph_node st))) in
  Ok (adj_lists, tree_node2batch_graph_node st, batch_graph_node2tree_node).

(** ** [get_batched_tree_init_encoding] *)

(** Modelled from the spec: the vocabulary of utils/vocab.py, of which the
    encoder uses [vocab.source[var_id]] and [len(vocab.source)]. *)
Record Vocab := {
  source_getitem : string → result Z;
  source_len : nat;
}.

(** Modelled from the spec: the grammar of utils/grammar.py, of which the
    encoder uses the dictionary [grammar.syntax_type_to_id]. *)
Record Grammar := {
  syntax_type_to_id : gmap string Z;
}.

(** [l[i]] on a Python list and [d[k]] on a Python dict. *)
Definition list_getitem {A : Type} (l : list A) (i : nat) : result A :=
  match l !! i with
  | Some x => Ok x
  | None => Raise IndexError
  end.

Definition dict_getitem {K A : Type} `{Countable K} (d : gmap K A) (k : K)
  : result A :=
  match d !! k with
  | Some x => Ok x
  | None => Raise KeyError
  end.

(** The index [idx] computed in the loop body for one item of
    [batch_graph_node2tree_node]. *)
Definition init_index (vocab : Vocab) (grammar : Grammar)
    (asts : list AbstractSyntaxTree) (item : nat * tree_node) : result Z :=
  let '(batch_node_id, (tree_id, tree_node_id)) := item in
  syntax_tree ← list_getitem asts tree_id;
  node ← dict_getitem (id_to_node syntax_tree) tree_node_id;
  if is_variable_node node then
    source_getitem vocab (var_id node)
  else
    g ← dict_getitem (syntax_type_to_id grammar) (node_type node);
    Ok (g + Z.of_nat (source_len vocab))%Z.

(** [for i, item in enumerate(...): indices[i] = idx], started at [i].
    The tensor holds 64-bit integers; the failure of the assignment for an
    index outside that range is left out, and the statements that need it
    bound the indices. *)
Fixpoint init_loop (vocab : Vocab) (grammar : Grammar)
    (asts : list AbstractSyntaxTree) (i : nat)
    (items : list (nat * tree_node)) (indices : list Z) : result (list Z) :=
  match items with
  | [] => Ok indices
  | item :: rest =>
      idx ← init_index vocab grammar asts item;
      init_loop vocab grammar asts (S i) rest (<[i := idx]> indices)
  end.

(** The tensor [indices] handed to the embedding table. *)
Definition init_indices (vocab : Vocab) (grammar : Grammar)
    (asts : list AbstractSyntaxTree)
    (batch_graph_node2tree_node : list (nat * tree_node)) : result (list Z) :=
  let indices := replicate (length batch_graph_node2tree_node) 0%Z in
  init_loop vocab grammar asts 0
    (OrderedDict.items batch_graph_node2tree_node) indices.

(** ** [unpack_batch_encoding] *)

(** [max(...)] over a generator: raises [ValueError] when it is empty. *)
Definition py_max (l : list nat) : result nat :=
  match l with
  | [] => Raise ValueError
  | x :: l' => Ok (foldl Nat.max x l')
  end.

(** [sorted(l, key=lambda t: t[0])]: a stable sort on the local node id. *)
Fixpoint insert_by_key (x : Z * nat) (l : list (Z * nat)) : list (Z * nat) :=
  match l with
  | [] => [x]
  | y :: l' => if (y.1 <=? x.1)%Z then y :: insert_by_key x l' else x :: y :: l'
  end.

Definition sorted_by_key (l : list (Z * nat)) : list (Z * nat) :=
  foldl (fun acc x => insert_by_key x acc) [] l.

(** [row[:k] = vals] on a numpy row, with [k = len(vals)]: the slice is
    clipped to the row, and a value list whose length differs from the
    slice's is accepted only when it broadcasts (one element). *)
Definition slice_assign {A : Type} (row : list A) (vals : list A)
  : result (list A) :=
  let s := Nat.min (length vals) (length row) in
  if decide (length vals = s) then Ok (vals ++ drop s row)
  else match vals with
       | [v] => Ok (replicate s v ++ drop s row)
       | _ => Raise ValueError
       end.

(** [row[:k] = v] for a scalar [v]. *)
Definition slice_fill {A : Type} (row : list A) (k : nat) (v : A) : list A :=
  replicate (Nat.min k (length row)) v ++ drop k row.

(** Body of [for e_id, syntax_tree in enumerate(batch_syntax_trees)]. *)
Definition unpack_body (example_node2batch_node_map : list (tree_node * nat))
    (e_id : nat) (st : list (list nat) * list (list Z))
  : result (list (list nat) * list (list Z)) :=
  let '(index, batch_tree_node_masks) := st in
  let example_nodes_with_batch_id :=
    omap (fun kv : tree_node * nat =>
            if decide (kv.1.1 = e_id) then Some (kv.1.2, kv.2) else None)
         (OrderedDict.items example_node2batch_node_map) in
  let sorted_example_nodes_with_batch_id :=
    sorted_by_key example_nodes_with_batch_id in
  let example_nodes_batch_id := sorted_example_nodes_with_batch_id.*2 in
  index_row ← list_getitem index e_id;
  index_row' ← slice_assign index_row example_nodes_batch_id;
  mask_row ← list_getitem batch_tree_node_masks e_id;
  Ok (<[e_id := index_row']> index,
      <[e_id := slice_fill mask_row (length example_nodes_batch_id) 1%Z]>
        batch_tree_node_masks).

Fixpoint unpack_loop (example_node2batch_node_map : list (tree_node * nat))
    (e_id : nat) (batch_syntax_trees : list AbstractSyntaxTree)
    (st : list (list nat) * list (list Z))
  : result (list (list nat) * list (list Z)) :=
  match batch_syntax_trees with
  | [] => Ok st
  | _ :: rest =>
      st' ← unpack_body example_node2batch_node_map e_id st;
      unpack_loop example_node2batch_node_map (S e_id) rest st'
  end.

(** [(1. - masks).byte()]: the mask holds the floats 0. and 1. only, kept
    here as integers; the cast to an unsigned byte wraps modulo 256. *)
Definition inverted_byte_mask (masks : list (list Z)) : list (list Z) :=
  map (map (fun m => (1 - m) mod 256)%Z) masks.

Section tensors.
Context {scalar : Type}.

(** [flattened[index]]: a gather along the first dimension. *)
Definition gather (flattened : list (list scalar)) (index : list (list nat))
  : result (list (list (list scalar))) :=
  list_comp (list_comp (list_getitem flattened)) index.

(** [t.masked_fill_(mask.unsqueeze(-1), v)]: every component of a vector
    whose mask byte is non-zero is overwritten. *)
Definition masked_fill (t : list (list (list scalar))) (mask : list (list Z))
    (v : scalar) : list (list (list scalar)) :=
  zip_with (zip_with (fun vec b =>
              if decide (b = 0%Z) then vec else map (fun _ => v) vec))
           t mask.

(** [nn.Embedding.__call__]: one row of the weight table per index. *)
Definition embedding (weight : list (list scalar)) (indices : list Z)
  : result (list (list scalar)) :=
  list_comp (fun i => if decide (0 ≤ i)%Z
                      then list_getitem weight (Z.to_nat i)
                      else Raise IndexError) indices.
End tensors.

(** The dictionary returned by [unpack_batch_encoding]. *)
Record Unpacked (scalar : Type) := {
  batch_tree_node_encoding : list (list (list scalar));
  batch_tree_node_masks : list (list Z);
}.
Arguments batch_tree_node_encoding {scalar} _.
Arguments batch_tree_node_masks {scalar} _.

(** The encoder object: the propagation engine [gnn], the weight of
    [src_node_embedding], the vocabulary, the grammar and the device. *)
Record GraphASTEncoder (scalar : Type) := {
  gnn_compute_node_representations :
    list (list scalar) → list AdjacencyList → result (list (list scalar));
  src_node_embedding_weight : list (list scalar);
  vocab : Vocab;
  grammar : Grammar;
  device : string;
}.
Arguments gnn_compute_node_representations {scalar} _ _ _.
Arguments src_node_embedding_weight {scalar} _.
Arguments vocab {scalar} _.
Arguments grammar {scalar} _.
Arguments device {scalar} _.

(** A computation that may raise and records the calls made to the
    propagation engine on the way. *)
Definition traced (call A : Type) : Type := list call * result A.

Definition lift_result {call A : Type} (r : result A) : traced call A := ([], r).

Definition traced_bind {call A B : Type} (c : traced call A)
    (f : A → traced call B) : traced call B :=
  match c.2 with
  | Ok a => (c.1 ++ (f a).1, (f a).2)
  | Raise e => (c.1, Raise e)
  end.

Notation "x ⇐ c ; k" := (traced_bind c (fun x => k))
  (at level 20, c at level 100, k at level 200, right associativity).

Section encoder.
Context {scalar : Type} (zero : scalar).

Definition get_batched_tree_init_encoding (self : GraphASTEncoder scalar)
    (asts : list AbstractSyntaxTree)
    (tree_node2batch_graph_node : list (tree_node * nat))
    (batch_graph_node2tree_node : list (nat * tree_node))
  : result (list (list scalar)) :=
  indices ← init_indices (vocab self) (grammar self) asts
              batch_graph_node2tree_node;
  embedding (src_node_embedding_weight self) indices.

Definition unpack_batch_encoding (flattened_node_encodings : list (list scalar))
    (batch_syntax_trees : list AbstractSyntaxTree)
    (example_node2batch_node_map : list (tree_node * nat))
  : result (Unpacked scalar) :=
  let batch_size := length batch_syntax_trees in
  max_node_num ← py_max (size <$> batch_syntax_trees);
  let index := replicate batch_size (replicate max_node_num 0) in
  let batch_tree_node_masks := replicate batch_size (replicate max_node_num 0%Z) in
  st ← unpack_loop example_node2batch_node_map 0 batch_syntax_trees
         (index, batch_tree_node_masks);
  batch_node_encoding ← gather flattened_node_encodings st.1;
  Ok {| batch_tree_node_encoding :=
          masked_fill batch_node_encoding (inverted_byte_mask st.2) zero;
        batch_tree_node_masks := st.2 |}.

(** One call of the engine: its arguments are recorded. *)
Definition call_gnn (self : GraphASTEncoder scalar)
    (initial_node_representation : list (list scalar))
    (adjacency_lists : list AdjacencyList)
  : traced (list (list scalar) * list AdjacencyList) (list (list scalar)) :=
  ([(initial_node_representation, adjacency_lists)],
   gnn_compute_node_representations self initial_node_representation
     adjacency_lists).

Definition forward (self : GraphASTEncoder scalar)
    (asts : list AbstractSyntaxTree)
  : traced (list (list scalar) * list AdjacencyList) (Unpacked scalar) :=
  r ⇐ lift_result (get_batched_adjacency_lists (device self) asts);
  let '(adj_lists, tree_node2batch_graph_node, batch_graph_node2tree_node) := r in
  tree_node_init_encoding ⇐
     lift_result (get_batched_tree_init_encoding self asts
                    tree_node2batch_graph_node batch_graph_node2tree_node);
  tree_node_encoding ⇐
     call_gnn self tree_node_init_encoding adj_lists;
  lift_result (unpack_batch_encoding tree_node_encoding asts
                 tree_node2batch_graph_node).
End encoder.

(** ** Notions used to state the properties *)

(** The endpoints of the parent/child edges of one tree, as keys of the
    mapping, in the order in which the inner loop meets them. *)
Fixpoint edge_endpoints (ast_id : nat) (edges : list (SyntaxNode * SyntaxNode))
  : list tree_node :=
  match edges with
  | [] => []
  | edge :: rest =>
      (ast_id, node_id edge.1) :: (ast_id, node_id edge.2)
        :: edge_endpoints ast_id rest
  end.

(** The same over a batch whose first tree has index [ast_id]. *)
Fixpoint batch_endpoints_from (ast_id : nat) (asts : list AbstractSyntaxTree)
  : list tree_node :=
  match asts with
  | [] => []
  | syntax_tree :: rest =>
      edge_endpoints ast_id (adjacency_list syntax_tree)
        ++ batch_endpoints_from (S ast_id) rest
  end.

Definition batch_endpoints (asts : list AbstractSyntaxTree) : list tree_node :=
  batch_endpoints_from 0 asts.

(** The number of distinct (tree-index, local-id) pairs that are an
    endpoint of some parent/child edge of the batch. *)
Definition total_node_count (asts : list AbstractSyntaxTree) : nat :=
  length (remove_dups (batch_endpoints asts)).

(** All adjacent-terminal pairs of the batch. *)
Definition batch_terminal_pairs (asts : list AbstractSyntaxTree) : list (Z * Z) :=
  concat (map adjacent_terminal_nodes asts).

(** One more key handed to [setdefault] with the current length as default. *)
Definition assign_id (d : list (tree_node * nat)) (k : tree_node)
  : list (tree_node * nat) :=
  (OrderedDict.setdefault k (length d) d).2.

Definition assign_ids (d : list (tree_node * nat)) (ks : list tree_node)
  : list (tree_node * nat) :=
  fold_left assign_id ks d.

(** How often an edge occurs in an edge list. *)
Definition multiplicity (e : nat * nat) (l : list (nat * nat)) : nat :=
  length (filter (λ x, x = e) l).

(** The edge list of the [i]-th relation, when it exists. *)
Definition relation_edges (adj_lists : list AdjacencyList) (i : nat)
  : option (list (nat * nat)) :=
  adj_list <$> adj_lists !! i.

(** The maximum node count among the trees of which some node received a
    combined id, as the specification words it (0 when there is none). *)
Definition mapped_trees (m : list (tree_node * nat))
    (asts : list AbstractSyntaxTree) : list AbstractSyntaxTree :=
  (filter (λ it : nat * AbstractSyntaxTree, it.1 ∈ (OrderedDict.keys m).*1)
          (imap (λ i t, (i, t)) asts)).*2.

Definition spec_max_tree_size (m : list (tree_node * nat))
    (asts : list AbstractSyntaxTree) : nat :=
  foldr Nat.max 0 (size <$> mapped_trees m asts).

(** The combined ids that belong to tree [i]. *)
Definition ids_of_tree (m : list (tree_node * nat)) (i c : nat) : Prop :=
  ∃ n : Z, OrderedDict.get (i, n) m = Some c.

(** The shape of a dictionary filled by [setdefault] with its own length:
    distinct keys, values counting up from 0 in insertion order. *)
Definition counted (d : list (tree_node * nat)) : Prop :=
  NoDup d.*1 ∧ d.*2 = seq 0 (length d).

(** Each reversed list mirrors its forward list, edge by edge. *)
Definition mirrored (st : BatchState) : Prop :=
  reversed_ast_adj_list st = prod_swap <$> ast_adj_list st
  ∧ reversed_terminal_nodes_adj_list st = prod_swap <$> terminal_nodes_adj_list st.

(** Every adjacent-terminal pair of the tree names endpoints of the tree's
    parent/child edges. *)
Definition chain_covered (ast_id : nat) (t : AbstractSyntaxTree) : Prop :=
  ∀ pair, pair ∈ adjacent_terminal_nodes t →
    (ast_id, pair.1) ∈ edge_endpoints ast_id (adjacency_list t)
    ∧ (ast_id, pair.2) ∈ edge_endpoints ast_id (adjacency_list t).

(** The order of keys by tree index. *)
Definition by_tree : relation tree_node := λ a b, a.1 ≤ b.1.

(** The node a key of the mapping refers to. *)
Definition node_of (asts : list AbstractSyntaxTree) (k : tree_node)
  : option SyntaxNode :=
  syntax_tree ← asts !! k.1; id_to_node syntax_tree !! k.2.

(** The index ranges the lookup tables are meant to have: a vocabulary
    numbers its entries below its size, a grammar from 0 upwards. *)
Definition vocab_indices_in_range (vocab : Vocab) : Prop :=
  ∀ w i, source_getitem vocab w = Ok i → (0 ≤ i < Z.of_nat (source_len vocab))%Z.

Definition grammar_indices_nonneg (grammar : Grammar) : Prop :=
  ∀ s g, syntax_type_to_id grammar !! s = Some g → (0 ≤ g)%Z.

(** A two-dimensional tensor of shape (b, n). *)
Definition shaped {A : Type} (b n : nat) (t : list (list A)) : Prop :=
  length t = b ∧ Forall (λ row, length row = n) t.

(** The parent/child edges of one tree as pairs of keys, and of a batch
    whose first tree has index [ast_id]. *)
Definition tree_edges (ast_id : nat) (t : AbstractSyntaxTree)
  : list (tree_node * tree_node) :=
  (λ edge : SyntaxNode * SyntaxNode,
     ((ast_id, node_id edge.1), (ast_id, node_id edge.2)))
    <$> adjacency_list t.

Fixpoint batch_edges_from (ast_id : nat) (asts : list AbstractSyntaxTree)
  : list (tree_node * tree_node) :=
  match asts with
  | [] => []
  | t :: rest => tree_edges ast_id t ++ batch_edges_from (S ast_id) rest
  end.

(** The adjacent-terminal pairs likewise. *)
Definition tree_chain (ast_id : nat) (t : AbstractSyntaxTree)
  : list (tree_node * tree_node) :=
  (λ pair : Z * Z, ((ast_id, pair.1), (ast_id, pair.2)))
    <$> adjacent_terminal_nodes t.

Fixpoint batch_chain_from (ast_id : nat) (asts : list AbstractSyntaxTree)
  : list (tree_node * tree_node) :=
  match asts with
  | [] => []
  | t :: rest => tree_chain ast_id t ++ batch_chain_from (S ast_id) rest
  end.

(** An edge between keys and the edge between the combined ids that the
    dictionary [d] gives them. *)
Definition maps_edge (d : list (tree_node * nat))
    (e : tree_node * tree_node) (ids : nat * nat) : Prop :=
  OrderedDict.get e.1 d = Some ids.1 ∧ OrderedDict.get e.2 d = Some ids.2.

(** A dictionary that still holds every item of an earlier one. *)
Definition extends (d d' : list (tree_node * nat)) : Prop :=
  ∀ k v, OrderedDict.get k d = Some v → OrderedDict.get k d' = Some v.

(** The chains of the whole batch are covered by the edges. *)
Definition batch_chain_covered (asts : list AbstractSyntaxTree) : Prop :=
  ∀ i t, asts !! i = Some t → chain_covered i t.

(** Both ends of an edge between keys lie in one tree of the batch. *)
Definition within_batch (ast_id n : nat) (e : tree_node * tree_node) : Prop :=
  e.1.1 = e.2.1 ∧ ast_id ≤ e.1.1 < ast_id + n.

(** The node of key [k] exists and its identifier (terminal) or syntax
    category (non-terminal) resolves to the feature index [idx]. *)
Definition resolves (vocab : Vocab) (grammar : Grammar)
    (asts : list AbstractSyntaxTree) (k : tree_node) (idx : Z) : Prop :=
  ∃ node, node_of asts k = Some node
    ∧ if is_variable_node node
      then source_getitem vocab (var_id node) = Ok idx
      else ∃ g, syntax_type_to_id grammar !! node_type node = Some g
                ∧ idx = (g + Z.of_nat (source_len vocab))%Z.

(** A grammar that numbers its [n] syntax types from 0 to [n - 1]. *)
Definition grammar_indices_below (grammar : Grammar) (n : nat) : Prop :=
  ∀ s g, syntax_type_to_id grammar !! s = Some g → (0 ≤ g < Z.of_nat n)%Z.

(** The list [example_nodes_with_batch_id] that the unpacking loop builds
    for tree [e_id], and [example_nodes_batch_id], its combined ids once
    sorted on the local node id. *)
Definition example_nodes_with_batch_id (m : list (tree_node * nat))
    (e_id : nat) : list (Z * nat) :=
  omap (fun kv : tree_node * nat =>
          if decide (kv.1.1 = e_id) then Some (kv.1.2, kv.2) else None) m.

Definition example_nodes_batch_id (m : list (tree_node * nat)) (e_id : nat)
  : list nat :=
  (sorted_by_key (example_nodes_with_batch_id m e_id)).*2.

(** The order of the sort key. *)
Definition key_le : relation (Z * nat) := λ a b, (a.1 ≤ b.1)%Z.

(** A tree as the batch encoder expects it: it has at least one node, and
    exactly one when it has no parent/child edge. *)
Definition tree_well_formed (t : AbstractSyntaxTree) : Prop :=
  1 ≤ size t ∧ (adjacency_list t = [] → size t = 1).

(** What the construction reads of a tree: the node ids of its edges, in
    order; its adjacent-terminal pairs, in order; and, for the nodes that
    [id_to_node] gives to those ids, whether the node is a variable node
    and then its variable identifier, else its syntax category. *)
Definition edge_ids (t : AbstractSyntaxTree) : list (Z * Z) :=
  (λ edge : SyntaxNode * SyntaxNode, (node_id edge.1, node_id edge.2))
    <$> adjacency_list t.

Definition node_view (node : SyntaxNode) : bool * string :=
  (is_variable_node node,
   if is_variable_node node then var_id node else node_type node).

Definition same_node_at (t1 t2 : AbstractSyntaxTree) (n : Z) : Prop :=
  node_view <$> id_to_node t1 !! n = node_view <$> id_to_node t2 !! n.

Definition same_contents (t1 t2 : AbstractSyntaxTree) : Prop :=
  edge_ids t1 = edge_ids t2
  ∧ adjacent_terminal_nodes t1 = adjacent_terminal_nodes t2
  ∧ ∀ p, p ∈ edge_ids t1 → same_node_at t1 t2 p.1 ∧ same_node_at t1 t2 p.2.

(** The integers a [torch.long] tensor holds. *)
Definition fits_int64 (i : Z) : Prop := (- 2 ^ 63 ≤ i < 2 ^ 63)%Z.

(** ** Sample batches *)
Module Samples.
Definition node (i : Z) (is_var : bool) (name : string) : SyntaxNode :=
  {| node_id := i; is_variable_node := is_var;
     var_id := if is_var then name else ""%string;
     node_type := if is_var then "var"%string else name |}.

Definition root : SyntaxNode := node 0 false "block".
Definition leaf1 : SyntaxNode := node 1 true "v1".
Definition leaf2 : SyntaxNode := node 2 true "v2".

(** A root with two terminal children, visited right child first, whose
    terminals form a chain. *)
Definition tree_a : AbstractSyntaxTree :=
  {| adjacency_list := [(root, leaf2); (root, leaf1)];
     adjacent_terminal_nodes := [(1, 2)%Z];
     id_to_node := list_to_map [(0%Z, root); (1%Z, leaf1); (2%Z, leaf2)];
     size := 3 |}.

(** The same tree without a terminal chain. *)
Definition tree_plain : AbstractSyntaxTree :=
  {| adjacency_list := [(root, leaf2); (root, leaf1)];
     adjacent_terminal_nodes := [];
     id_to_node := list_to_map [(0%Z, root); (1%Z, leaf1); (2%Z, leaf2)];
     size := 3 |}.

(** A single terminal node and no edge. *)
Definition tree_single : AbstractSyntaxTree :=
  {| adjacency_list := [];
     adjacent_terminal_nodes := [];
     id_to_node := list_to_map [(1%Z, leaf1)];
     size := 1 |}.

Definition sample_vocab : Vocab :=
  {| source_getitem := λ w,
       if decide (w = "v1"%string) then Ok 0%Z
       else if decide (w = "v2"%string) then Ok 1%Z
       else Raise KeyError;
     source_len := 2 |}.

Definition sample_grammar : Grammar :=
  {| syntax_type_to_id := {[ "block"%string := 0%Z ]} |}.

(** An encoder over integer "scalars" whose engine returns its input. *)
Definition sample_encoder : GraphASTEncoder Z :=
  {| gnn_compute_node_representations := λ init _, Ok init;
     src_node_embedding_weight := [[10; 11]; [20; 21]; [30; 31]]%Z;
     vocab := sample_vocab;
     grammar := sample_grammar;
     device := "cpu" |}.

(** The same encoder with an engine that always fails. *)
Definition failing_engine_encoder : GraphASTEncoder Z :=
  {| gnn_compute_node_representations := λ _ _, Raise ValueError;
     src_node_embedding_weight := [[10; 11]; [20; 21]; [30; 31]]%Z;
     vocab := sample_vocab;
     grammar := sample_grammar;
     device := "cpu" |}.

(** A tree with the contents of [tree_a] in another object: the edge nodes
    carry other payloads, [id_to_node] knows one more id, and the node
    count differs. *)
Definition tree_a_variant : AbstractSyntaxTree :=
  {| adjacency_list :=
       [(node 0 true "shadow", node 2 false "other");
        (node 0 false "block", node 1 false "other")];
     adjacent_terminal_nodes := [(1, 2)%Z];
     id_to_node :=
       list_to_map [(0%Z, root); (1%Z, leaf1); (2%Z, leaf2); (9%Z, leaf1)];
     size := 7 |}.

(** What [get_batched_adjacency_lists] returns for the batch [[tree_a]]. *)
Definition mapping_a : list (tree_node * nat) :=
  [((0, 0%Z), 0); ((0, 2%Z), 1); ((0, 1%Z), 2)].

Definition inverse_a : list (nat * tree_node) :=
  [(0, (0, 0%Z)); (1, (0, 2%Z)); (2, (0, 1%Z))].

Definition relations_a : list AdjacencyList :=
  [ {| node_num := 3; adj_list := [(0, 1); (0, 2)];
       adj_device := Some "cpu"%string |};
    {| node_num := 3; adj_list := [(1, 0); (2, 0)];
       adj_device := Some "cpu"%string |};
    {| node_num := 3; adj_list := [(2, 1)]; adj_device := None |};
    {| node_num := 3; adj_list := [(1, 2)]; adj_device := None |} ].
End Samples.

(** * Properties *)

(** ** Facts about the ordered dictionary *)
Section odict_facts.
Context {K V : Type} `{EqDecision K}.
Implicit Types (d : list (K * V)) (k : K) (v : V).

Lemma get_Some_elem d k v : OrderedDict.get k d = Some v → (k, v) ∈ d.
Proof.
  induction d as [|[k' v'] d IH]; simpl; [done|].
  case_decide; intros Hg.
  - simplify_eq. left.
  - right. auto.
Qed.

Lemma get_None d k : OrderedDict.get k d = None ↔ k ∉ d.*1.
Proof.
  induction d as [|[k' v'] d IH]; simpl.
  - split; [intros _; apply not_elem_of_nil | done].
  - rewrite not_elem_of_cons, <- IH. case_decide; split; try done.
    + by intros [? _].
    + by intros [_ ?].
Qed.

Lemma get_is_Some d k : is_Some (OrderedDict.get k d) ↔ k ∈ d.*1.
Proof.
  rewrite <- not_eq_None_Some, get_None.
  destruct (decide (k ∈ d.*1)); naive_solver.
Qed.

Lemma get_app d d' k :
  OrderedDict.get k (d ++ d') =
    match OrderedDict.get k d with
    | Some v => Some v
    | None => OrderedDict.get k d'
    end.
Proof.
  induction d as [|[k' v'] d IH]; simpl; [done|].
  case_decide; done.
Qed.

Lemma elem_get d k v : NoDup d.*1 → (k, v) ∈ d → OrderedDict.get k d = Some v.
Proof.
  induction d as [|[k' v'] d IH]; simpl.
  - intros _ Hin. by apply elem_of_nil in Hin.
  - rewrite NoDup_cons. intros [Hk Hnd] Hin.
    apply elem_of_cons in Hin as [Heq | Hin].
    + simplify_eq. by rewrite decide_True.
    + rewrite decide_False; [auto|].
      intros ->. apply Hk. apply list_elem_of_fmap. by exists (k, v).
Qed.

Lemma get_lookup d k v i :
  NoDup d.*1 → d !! i = Some (k, v) → OrderedDict.get k d = Some v.
Proof.
  intros Hnd Hi. apply elem_get; [done|].
  apply list_elem_of_lookup. by exists i.
Qed.

(** Building the inverse dictionary from pairs with distinct keys keeps
    the pairs as they are. *)
Lemma setitem_fresh d k v :
  k ∉ d.*1 → OrderedDict.setitem k v d = d ++ [(k, v)].
Proof.
  induction d as [|[k' v'] d IH]; simpl; [done|].
  rewrite not_elem_of_cons. intros [Hne Hk].
  rewrite decide_False by done. by rewrite IH.
Qed.

Lemma of_pairs_NoDup (pairs : list (K * V)) :
  NoDup pairs.*1 → OrderedDict.of_pairs pairs = pairs.
Proof.
  unfold OrderedDict.of_pairs.
  induction pairs as [|[k v] pairs IH] using rev_ind; [done|].
  rewrite fmap_app, fold_left_app. simpl.
  intros Hnd. apply NoDup_app in Hnd as (Hnd & Hfresh & _).
  rewrite IH by done. apply setitem_fresh.
  intros Hin. apply (Hfresh k Hin). simpl. left.
Qed.
End odict_facts.

(** ** The assignment of combined ids *)

Lemma counted_nil : counted [].
Proof. split; [constructor | done]. Qed.

Lemma assign_id_old d k v :
  OrderedDict.get k d = Some v → assign_id d k = d.
Proof. unfold assign_id, OrderedDict.setdefault. by intros ->. Qed.

Lemma assign_id_new d k :
  OrderedDict.get k d = None → assign_id d k = d ++ [(k, length d)].
Proof. unfold assign_id, OrderedDict.setdefault. by intros ->. Qed.

Lemma assign_id_counted d k : counted d → counted (assign_id d k).
Proof.
  intros [Hnd Hval].
  destruct (OrderedDict.get k d) as [v|] eqn:Hg.
  - by rewrite (assign_id_old _ _ _ Hg).
  - rewrite (assign_id_new _ _ Hg). split.
    + rewrite fmap_app. apply NoDup_app. split_and!; [done| |].
      * intros k' Hin Hin'. apply list_elem_of_singleton in Hin'. simpl in Hin'.
        subst k'. by apply get_None in Hg.
      * apply NoDup_singleton.
    + rewrite fmap_app, length_app, Hval. simpl.
      by rewrite Nat.add_1_r, seq_S.
Qed.

Lemma assign_id_keys d k k' :
  k' ∈ (assign_id d k).*1 ↔ k' ∈ d.*1 ∨ k' = k.
Proof.
  destruct (OrderedDict.get k d) as [v|] eqn:Hg.
  - rewrite (assign_id_old _ _ _ Hg). split; [auto|].
    intros [?| ->]; [done|]. apply get_is_Some. by exists v.
  - rewrite (assign_id_new _ _ Hg), fmap_app, elem_of_app. simpl.
    by rewrite list_elem_of_singleton.
Qed.

Lemma assign_ids_snoc d ks k :
  assign_ids d (ks ++ [k]) = assign_id (assign_ids d ks) k.
Proof. unfold assign_ids. by rewrite fold_left_app. Qed.

Lemma assign_ids_app d ks ks' :
  assign_ids d (ks ++ ks') = assign_ids (assign_ids d ks) ks'.
Proof. unfold assign_ids. by rewrite fold_left_app. Qed.

Lemma assign_ids_counted d ks : counted d → counted (assign_ids d ks).
Proof.
  revert d. induction ks as [|k ks IH]; intros d Hd; [done|].
  apply IH. by apply assign_id_counted.
Qed.

Lemma assign_ids_keys ks k :
  k ∈ (assign_ids [] ks).*1 ↔ k ∈ ks.
Proof.
  induction ks as [|k' ks IH] using rev_ind.
  - done.
  - rewrite assign_ids_snoc, assign_id_keys, IH, elem_of_app.
    by rewrite list_elem_of_singleton.
Qed.

(** The dictionary has one entry per distinct key met. *)
Lemma assign_ids_length ks :
  length (assign_ids [] ks) = length (remove_dups ks).
Proof.
  rewrite <- (length_fmap fst (assign_ids [] ks)).
  apply Permutation_length, NoDup_Permutation.
  - apply assign_ids_counted, counted_nil.
  - apply NoDup_remove_dups.
  - intros k. by rewrite assign_ids_keys, elem_of_remove_dups.
Qed.

(** A key met for the first time after the keys [pre] receives the number
    of distinct keys of [pre]. *)
Lemma assign_ids_first_encounter ks pre k post :
  ks = pre ++ k :: post → k ∉ pre →
  OrderedDict.get k (assign_ids [] ks) = Some (length (remove_dups pre)).
Proof.
  revert pre k post.
  induction ks as [|x ks IH] using rev_ind; intros pre k post Heq Hpre.
  - by destruct pre.
  - rewrite assign_ids_snoc.
    destruct post as [|y post _] using rev_ind.
    + apply app_inj_tail in Heq as [-> ->].
      rewrite assign_id_new.
      * rewrite get_app.
        assert (OrderedDict.get k (assign_ids [] pre) = None) as ->
          by by rewrite get_None, assign_ids_keys.
        simpl. rewrite decide_True by done. by rewrite assign_ids_length.
      * by rewrite get_None, assign_ids_keys.
    + rewrite app_comm_cons, app_assoc in Heq.
      apply app_inj_tail in Heq as [-> ->].
      specialize (IH pre k post eq_refl Hpre).
      destruct (OrderedDict.get y (assign_ids [] (pre ++ k :: post)))
        as [v|] eqn:Hg.
      * by rewrite (assign_id_old _ _ _ Hg).
      * rewrite (assign_id_new _ _ Hg), get_app. by rewrite IH.
Qed.

(** The position of an item is its value. *)
Lemma counted_lookup d i k v :
  counted d → d !! i = Some (k, v) → v = i.
Proof.
  intros [_ Hval] Hi.
  assert (d.*2 !! i = Some v) as Hv by by rewrite list_lookup_fmap, Hi.
  rewrite Hval in Hv. apply lookup_seq in Hv. lia.
Qed.

Lemma counted_get_lookup d k v :
  counted d → OrderedDict.get k d = Some v → d !! v = Some (k, v).
Proof.
  intros Hd Hg. apply get_Some_elem, list_elem_of_lookup in Hg as [i Hi].
  by rewrite <- (counted_lookup _ _ _ _ Hd Hi) in Hi.
Qed.

Lemma counted_get_lt d k v :
  counted d → OrderedDict.get k d = Some v → v < length d.
Proof.
  intros Hd Hg. eapply lookup_lt_Some. by apply counted_get_lookup.
Qed.

Lemma counted_get_inj d k1 k2 v :
  counted d → OrderedDict.get k1 d = Some v → OrderedDict.get k2 d = Some v →
  k1 = k2.
Proof.
  intros Hd H1 H2.
  apply (counted_get_lookup _ _ _ Hd) in H1, H2. congruence.
Qed.

Lemma counted_image d c :
  counted d → c < length d → ∃ k, OrderedDict.get k d = Some c.
Proof.
  intros Hd Hc. destruct (lookup_lt_is_Some_2 d c Hc) as [[k v] Hi].
  exists k. pose proof (counted_lookup _ _ _ _ Hd Hi) as ->.
  eapply get_lookup; [apply Hd | done].
Qed.

(** The inverse dictionary lists the same items, swapped. *)
Lemma counted_inverse d :
  counted d →
  OrderedDict.of_pairs (map (λ kv : tree_node * nat, (kv.2, kv.1)) d)
    = map (λ kv, (kv.2, kv.1)) d.
Proof.
  intros [_ Hval]. apply of_pairs_NoDup.
  assert ((map (λ kv : tree_node * nat, (kv.2, kv.1)) d).*1 = d.*2) as ->.
  { clear Hval. induction d as [|kv d IH]; simpl; [done | by f_equal]. }
  rewrite Hval. apply NoDup_seq.
Qed.

(** ** The loops of [get_batched_adjacency_lists] *)

Lemma bind_Ok {A B : Type} (c : result A) (f : A → result B) (b : B) :
  c ≫= f = Ok b ↔ ∃ a, c = Ok a ∧ f a = Ok b.
Proof.
  destruct c as [a|e]; simpl.
  - split; [by exists a | by intros (? & [= <-] & ?)].
  - split; [done | by intros (? & ? & _)].
Qed.

(** Split a successful sequence of fallible steps into its steps. *)
Ltac inv_bind H :=
  repeat match type of H with
  | _ ≫= _ = Ok _ =>
      let a := fresh "a" in
      let Ha := fresh "Ha" in
      apply bind_Ok in H as (a & Ha & H)
  | Ok _ = Ok _ => injection H as H
  end.

Lemma edge_body_dict ast_id st edge :
  tree_node2batch_graph_node (edge_body ast_id st edge)
  = assign_id (assign_id (tree_node2batch_graph_node st)
                 (ast_id, node_id edge.1)) (ast_id, node_id edge.2).
Proof.
  unfold edge_body, assign_id.
  destruct (OrderedDict.setdefault (ast_id, node_id edge.1) _ _) as [s d1].
  simpl. by destruct (OrderedDict.setdefault (ast_id, node_id edge.2) _ _).
Qed.

Lemma edge_loop_dict ast_id edges st :
  tree_node2batch_graph_node (fold_left (edge_body ast_id) edges st)
  = assign_ids (tree_node2batch_graph_node st) (edge_endpoints ast_id edges).
Proof.
  revert st. induction edges as [|edge edges IH]; intros st; simpl; [done|].
  by rewrite IH, edge_body_dict.
Qed.

Lemma terminal_body_dict ast_id st pair st' :
  terminal_body ast_id st pair = Ok st' →
  tree_node2batch_graph_node st' = tree_node2batch_graph_node st.
Proof. unfold terminal_body. intros H. inv_bind H. by subst st'. Qed.

Lemma terminal_loop_dict ast_id pairs st st' :
  for_each (terminal_body ast_id) pairs st = Ok st' →
  tree_node2batch_graph_node st' = tree_node2batch_graph_node st.
Proof.
  revert st. induction pairs as [|pair pairs IH]; intros st H; simpl in H.
  - by injection H as ->.
  - inv_bind H. rewrite (IH _ H). by eapply terminal_body_dict.
Qed.

Lemma batch_loop_dict ast_id asts st st' :
  batch_loop ast_id asts st = Ok st' →
  tree_node2batch_graph_node st'
  = assign_ids (tree_node2batch_graph_node st)
      (batch_endpoints_from ast_id asts).
Proof.
  revert ast_id st. induction asts as [|t asts IH]; intros ast_id st H; simpl in H.
  - by injection H as ->.
  - inv_bind H. rewrite (IH _ _ H). simpl. rewrite assign_ids_app.
    unfold tree_body in Ha. apply terminal_loop_dict in Ha.
    by rewrite Ha, edge_loop_dict.
Qed.

Lemma edge_body_mirrored ast_id st edge :
  mirrored st → mirrored (edge_body ast_id st edge).
Proof.
  intros [Ht Hc]. unfold edge_body.
  destruct (OrderedDict.setdefault (ast_id, node_id edge.1) _ _) as [s d1].
  destruct (OrderedDict.setdefault (ast_id, node_id edge.2) _ _) as [t d2].
  split; simpl; [|done]. by rewrite fmap_app, Ht.
Qed.

Lemma edge_loop_mirrored ast_id edges st :
  mirrored st → mirrored (fold_left (edge_body ast_id) edges st).
Proof.
  revert st. induction edges as [|edge edges IH]; intros st Hm; simpl; [done|].
  by apply IH, edge_body_mirrored.
Qed.

Lemma terminal_body_mirrored ast_id st pair st' :
  terminal_body ast_id st pair = Ok st' → mirrored st → mirrored st'.
Proof.
  unfold terminal_body. intros H [Ht Hc]. inv_bind H. subst st'.
  split; simpl; [done|]. by rewrite fmap_app, Hc.
Qed.

Lemma terminal_loop_mirrored ast_id pairs st st' :
  for_each (terminal_body ast_id) pairs st = Ok st' → mirrored st → mirrored st'.
Proof.
  revert st. induction pairs as [|pair pairs IH]; intros st H Hm; simpl in H.
  - by injection H as <-.
  - inv_bind H. eauto using terminal_body_mirrored.
Qed.

Lemma batch_loop_mirrored ast_id asts st st' :
  batch_loop ast_id asts st = Ok st' → mirrored st → mirrored st'.
Proof.
  revert ast_id st. induction asts as [|t asts IH]; intros ast_id st H Hm;
    simpl in H.
  - by injection H as <-.
  - inv_bind H. eapply IH; [done|].
    eapply terminal_loop_mirrored; [done|]. by apply edge_loop_mirrored.
Qed.

(** The chain list grows by one edge per adjacent-terminal pair. *)
Lemma edge_loop_chain ast_id edges st :
  terminal_nodes_adj_list (fold_left (edge_body ast_id) edges st)
  = terminal_nodes_adj_list st.
Proof.
  revert st. induction edges as [|edge edges IH]; intros st; simpl; [done|].
  rewrite IH. unfold edge_body.
  destruct (OrderedDict.setdefault (ast_id, node_id edge.1) _ _) as [s d1].
  by destruct (OrderedDict.setdefault (ast_id, node_id edge.2) _ _).
Qed.

Lemma terminal_loop_chain ast_id pairs st st' :
  for_each (terminal_body ast_id) pairs st = Ok st' →
  length (terminal_nodes_adj_list st')
  = length (terminal_nodes_adj_list st) + length pairs.
Proof.
  revert st. induction pairs as [|pair pairs IH]; intros st H; simpl in H.
  - injection H as <-. simpl. lia.
  - inv_bind H. rewrite (IH _ H). unfold terminal_body in Ha. inv_bind Ha.
    subst a. simpl. rewrite length_app. simpl. lia.
Qed.

Lemma batch_loop_chain ast_id asts st st' :
  batch_loop ast_id asts st = Ok st' →
  length (terminal_nodes_adj_list st')
  = length (terminal_nodes_adj_list st) + length (batch_terminal_pairs asts).
Proof.
  revert ast_id st. induction asts as [|t asts IH]; intros ast_id st H;
    simpl in H.
  - injection H as <-. simpl. lia.
  - inv_bind H. rewrite (IH _ _ H). unfold tree_body in Ha.
    rewrite (terminal_loop_chain _ _ _ _ Ha), edge_loop_chain.
    unfold batch_terminal_pairs. simpl. rewrite length_app. lia.
Qed.

(** The loops cannot fail when the chains are covered by the edges. *)
Lemma assign_ids_keys_from d ks k :
  k ∈ (assign_ids d ks).*1 ↔ k ∈ d.*1 ∨ k ∈ ks.
Proof.
  revert d. induction ks as [|k' ks IH]; intros d; simpl.
  - split; [auto | intros [?|Hin]; [done | by apply elem_of_nil in Hin]].
  - change (assign_ids d (k' :: ks)) with (assign_ids (assign_id d k') ks).
    rewrite IH, assign_id_keys, elem_of_cons. tauto.
Qed.

Lemma terminal_loop_total ast_id pairs st :
  (∀ pair, pair ∈ pairs →
     (ast_id, pair.1) ∈ (tree_node2batch_graph_node st).*1
     ∧ (ast_id, pair.2) ∈ (tree_node2batch_graph_node st).*1) →
  ∃ st', for_each (terminal_body ast_id) pairs st = Ok st'.
Proof.
  revert st. induction pairs as [|pair pairs IH]; intros st Hin; simpl.
  - by eexists.
  - destruct (Hin pair) as [H1 H2]; [left|].
    apply get_is_Some in H1 as [c Hc], H2 as [n Hn].
    assert (∃ st1, terminal_body ast_id st pair = Ok st1
                   ∧ tree_node2batch_graph_node st1
                     = tree_node2batch_graph_node st) as (st1 & -> & Hd).
    { unfold terminal_body, OrderedDict.getitem. cbv zeta.
      rewrite Hc. simpl. rewrite Hn. simpl. by eexists. }
    simpl. apply IH. rewrite Hd. intros p Hp. apply Hin. by right.
Qed.

Lemma batch_loop_total ast_id asts st :
  (∀ i t, asts !! i = Some t → chain_covered (ast_id + i) t) →
  ∃ st', batch_loop ast_id asts st = Ok st'.
Proof.
  revert ast_id st. induction asts as [|t asts IH]; intros ast_id st Hcov; simpl.
  - by eexists.
  - destruct (terminal_loop_total ast_id (adjacent_terminal_nodes t)
                (fold_left (edge_body ast_id) (adjacency_list t) st))
      as [st1 Hst1].
    { intros pair Hp. rewrite edge_loop_dict.
      specialize (Hcov 0 t eq_refl pair Hp). rewrite Nat.add_0_r in Hcov.
      rewrite !assign_ids_keys_from. tauto. }
    unfold tree_body. rewrite Hst1. simpl. apply IH.
    intros i t' Hi. replace (S ast_id + i) with (ast_id + S i) by lia.
    by apply Hcov.
Qed.

(** ** What [get_batched_adjacency_lists] returns *)

Lemma batch_loop_counted ast_id asts st st' :
  batch_loop ast_id asts st = Ok st' →
  counted (tree_node2batch_graph_node st) →
  counted (tree_node2batch_graph_node st').
Proof.
  intros H Hd. rewrite (batch_loop_dict _ _ _ _ H). by apply assign_ids_counted.
Qed.

Lemma get_batched_adjacency_lists_Ok dev asts adj m inv :
  get_batched_adjacency_lists dev asts = Ok (adj, m, inv) →
  ∃ st, batch_loop 0 asts initial_state = Ok st
    ∧ m = assign_ids [] (batch_endpoints asts)
    ∧ inv = map (λ kv, (kv.2, kv.1)) m
    ∧ adj_list <$> adj =
        [ast_adj_list st; reversed_ast_adj_list st]
        ++ match terminal_nodes_adj_list st with
           | [] => []
           | _ :: _ => [terminal_nodes_adj_list st;
                        reversed_terminal_nodes_adj_list st]
           end
    ∧ Forall (λ a, node_num a = length m) adj.
Proof.
  unfold get_batched_adjacency_lists. intros H. inv_bind H.
  rename a into st. exists st.
  pose proof (batch_loop_dict _ _ _ _ Ha) as Hd. simpl in Hd.
  assert (counted (tree_node2batch_graph_node st)) as Hc
    by (eapply batch_loop_counted; [done | apply counted_nil]).
  subst adj m inv. split_and!; [done | done | | |].
  - unfold OrderedDict.items. by apply counted_inverse.
  - by destruct (terminal_nodes_adj_list st).
  - destruct (terminal_nodes_adj_list st); repeat constructor.
Qed.

Lemma get_batched_adjacency_lists_counted dev asts adj m inv :
  get_batched_adjacency_lists dev asts = Ok (adj, m, inv) → counted m.
Proof.
  intros (st & _ & -> & _)%get_batched_adjacency_lists_Ok.
  apply assign_ids_counted, counted_nil.
Qed.

(** The function returns whenever the chains only name edge endpoints. *)
Lemma get_batched_adjacency_lists_total dev asts :
  (∀ i t, asts !! i = Some t → chain_covered i t) →
  ∃ r, get_batched_adjacency_lists dev asts = Ok r.
Proof.
  intros Hcov. destruct (batch_loop_total 0 asts initial_state Hcov) as [st Hst].
  unfold get_batched_adjacency_lists. rewrite Hst. simpl. by eexists.
Qed.

(** C1: whenever [get_batched_adjacency_lists] returns, the mapping
    [tree_node2batch_graph_node] is defined exactly on the endpoints of the
    parent/child edges of the batch, it is injective, and its image is
    exactly the interval [0, total_node_count), where [total_node_count] is
    the number of distinct (tree-index, local-id) endpoint pairs; this is
    also the number of entries and the [node_num] of every relation. *)
Theorem mapping_bijection dev asts adj m inv :
  get_batched_adjacency_lists dev asts = Ok (adj, m, inv) →
  (∀ k, is_Some (OrderedDict.get k m) ↔ k ∈ batch_endpoints asts)
  ∧ (∀ k1 k2 c, OrderedDict.get k1 m = Some c →
                OrderedDict.get k2 m = Some c → k1 = k2)
  ∧ (∀ c, (∃ k, OrderedDict.get k m = Some c) ↔ c < total_node_count asts)
  ∧ length m = total_node_count asts
  ∧ Forall (λ a, node_num a = total_node_count asts) adj.
Proof.
  intros H. pose proof (get_batched_adjacency_lists_counted _ _ _ _ _ H) as Hc.
  apply get_batched_adjacency_lists_Ok in H as (st & _ & Hm & _ & _ & Hn).
  assert (length m = total_node_count asts) as Hlen
    by (subst m; apply assign_ids_length).
  split_and!.
  - intros k. rewrite get_is_Some. subst m. apply assign_ids_keys.
  - intros k1 k2 c. by apply counted_get_inj.
  - intros c. rewrite <- Hlen. split.
    + intros [k Hk]. by eapply counted_get_lt.
    + by apply counted_image.
  - done.
  - by rewrite <- Hlen.
Qed.

Lemma mapping_bijection_witness :
  length [((0, 0%Z), 0); ((0, 2%Z), 1); ((0, 1%Z), 2);
          ((2, 0%Z), 3); ((2, 2%Z), 4); ((2, 1%Z), 5)]
  = total_node_count [Samples.tree_a; Samples.tree_single; Samples.tree_plain]
  ∧ ((∃ k, OrderedDict.get k
             [((0, 0%Z), 0); ((0, 2%Z), 1); ((0, 1%Z), 2);
              ((2, 0%Z), 3); ((2, 2%Z), 4); ((2, 1%Z), 5)] = Some 5)
     ↔ 5 < total_node_count
             [Samples.tree_a; Samples.tree_single; Samples.tree_plain]).
Proof.
  destruct (mapping_bijection "cpu"
              [Samples.tree_a; Samples.tree_single; Samples.tree_plain]
              _ _ _ eq_refl) as (_ & _ & Himage & Hlen & _).
  split; [exact Hlen | exact (Himage 5)].
Defined.

(** C2: combined ids follow first-encounter order over the whole batch.
    Listing the edge endpoints tree by tree and edge by edge, an endpoint
    met for the first time after the endpoints [pre] receives the number of
    distinct endpoints of [pre], whatever trees they belong to; so the first
    endpoint receives 0, each new endpoint the next integer, and the items
    of the dictionary carry the values 0, 1, 2, ... in insertion order. *)
Theorem first_encounter_order dev asts adj m inv :
  get_batched_adjacency_lists dev asts = Ok (adj, m, inv) →
  OrderedDict.values m = seq 0 (length m)
  ∧ ∀ pre k post,
      batch_endpoints asts = pre ++ k :: post → k ∉ pre →
      OrderedDict.get k m = Some (length (remove_dups pre)).
Proof.
  intros H. split.
  - by destruct (get_batched_adjacency_lists_counted _ _ _ _ _ H).
  - apply get_batched_adjacency_lists_Ok in H as (_ & _ & -> & _).
    intros pre k post. apply assign_ids_first_encounter.
Qed.

Lemma first_encounter_order_witness :
  OrderedDict.get (1, 0%Z)
    [((0, 0%Z), 0); ((0, 2%Z), 1); ((0, 1%Z), 2);
     ((1, 0%Z), 3); ((1, 2%Z), 4); ((1, 1%Z), 5)]
  = Some (length (remove_dups [(0, 0%Z); (0, 2%Z); (0, 0%Z); (0, 1%Z)])).
Proof.
  eapply (first_encounter_order "cpu" [Samples.tree_a; Samples.tree_plain]
            _ _ _ eq_refl).
  - vm_compute. reflexivity.
  - vm_compute. intros Hin. by repeat (apply elem_of_cons in Hin as [[=]|Hin]);
      apply elem_of_nil in Hin.
Defined.

(** ** Reverse relations *)

Lemma multiplicity_swap (e : nat * nat) (l : list (nat * nat)) :
  multiplicity e l = multiplicity (prod_swap e) (prod_swap <$> l).
Proof.
  unfold multiplicity. induction l as [|x l IH]; [done|].
  rewrite fmap_cons, !filter_cons.
  destruct (decide (x = e)) as [->|Hne].
  - rewrite decide_True by done. simpl. by rewrite IH.
  - rewrite decide_False; [done|].
    intros Heq. apply Hne. destruct x, e. simpl in Heq. by simplify_eq.
Qed.

(** C3: whenever [get_batched_adjacency_lists] returns, the first two
    relations are the forward-tree and reverse-tree relations, and every
    edge (u, v) occurs in the one exactly as often as (v, u) occurs in the
    other; when chain relations are produced (third and fourth relation)
    the same holds between them. *)
Theorem reverse_pair_symmetry dev asts adj m inv :
  get_batched_adjacency_lists dev asts = Ok (adj, m, inv) →
  (∃ fwd rev, relation_edges adj 0 = Some fwd ∧ relation_edges adj 1 = Some rev
     ∧ ∀ u v, multiplicity (u, v) fwd = multiplicity (v, u) rev)
  ∧ (∀ fwd rev, relation_edges adj 2 = Some fwd → relation_edges adj 3 = Some rev →
       ∀ u v, multiplicity (u, v) fwd = multiplicity (v, u) rev).
Proof.
  intros (st & Hst & _ & _ & Hadj & _)%get_batched_adjacency_lists_Ok.
  destruct (batch_loop_mirrored _ _ _ _ Hst) as [Ht Hc]; [by split|].
  unfold relation_edges. rewrite <- !list_lookup_fmap, Hadj. split.
  - eexists _, _. split_and!; [done | done |].
    intros u v. rewrite Ht. apply (multiplicity_swap (u, v)).
  - intros fwd rev. destruct (terminal_nodes_adj_list st) eqn:Hl; [done|].
    simpl. intros [= <-] [= <-] u v. rewrite Hc.
    apply (multiplicity_swap (u, v)).
Qed.

Lemma reverse_pair_symmetry_witness :
  multiplicity (2, 1) [(2, 1)] = multiplicity (1, 2) [(1, 2)].
Proof.
  destruct (reverse_pair_symmetry "cpu" [Samples.tree_a] _ _ _ eq_refl)
    as [_ Hchain].
  exact (Hchain [(2, 1)] [(1, 2)] eq_refl eq_refl 2 1).
Defined.

(** ** Conditional inclusion of the chain relations *)

Lemma batch_terminal_pairs_nil asts :
  batch_terminal_pairs asts = [] →
  ∀ t, t ∈ asts → adjacent_terminal_nodes t = [].
Proof.
  unfold batch_terminal_pairs.
  induction asts as [|t' asts IH]; simpl; intros Hnil t Hin.
  - by apply elem_of_nil in Hin.
  - apply app_eq_nil in Hnil as [Ht' Hrest].
    apply elem_of_cons in Hin as [->|Hin]; auto.
Qed.

(** C4: a batch without any adjacent-terminal pair always yields exactly
    two relations (forward-tree, reverse-tree); a batch with at least one
    adjacent-terminal pair, in whichever tree, yields exactly four whenever
    the function returns, and it does return when the pairs name endpoints
    of parent/child edges of their tree. *)
Theorem conditional_chain_inclusion dev asts :
  (batch_terminal_pairs asts = [] →
     ∃ adj m inv, get_batched_adjacency_lists dev asts = Ok (adj, m, inv)
       ∧ length adj = 2)
  ∧ (batch_terminal_pairs asts ≠ [] →
     ∀ adj m inv, get_batched_adjacency_lists dev asts = Ok (adj, m, inv) →
       length adj = 4)
  ∧ (batch_terminal_pairs asts ≠ [] →
     (∀ i t, asts !! i = Some t → chain_covered i t) →
     ∃ adj m inv, get_batched_adjacency_lists dev asts = Ok (adj, m, inv)
       ∧ length adj = 4).
Proof.
  assert (batch_terminal_pairs asts ≠ [] →
          ∀ adj m inv, get_batched_adjacency_lists dev asts = Ok (adj, m, inv) →
            length adj = 4) as Hfour; [|split_and!; [| done |]].
  - intros Hne adj m inv H.
    apply get_batched_adjacency_lists_Ok in H as (st & Hst & _ & _ & Hadj & _).
    apply batch_loop_chain in Hst.
    rewrite <- (length_fmap adj_list), Hadj.
    destruct (terminal_nodes_adj_list st); [|done].
    destruct (batch_terminal_pairs asts); [done | simpl in Hst; lia].
  - intros Hnil.
    destruct (get_batched_adjacency_lists_total dev asts) as [[[adj m] inv] H].
    { intros i t Hi pair Hp. exfalso.
      rewrite (batch_terminal_pairs_nil asts Hnil t) in Hp.
      - by apply elem_of_nil in Hp.
      - apply list_elem_of_lookup. by exists i. }
    exists adj, m, inv. split; [done|].
    apply get_batched_adjacency_lists_Ok in H as (st & Hst & _ & _ & Hadj & _).
    apply batch_loop_chain in Hst. rewrite Hnil in Hst. simpl in Hst.
    rewrite <- (length_fmap adj_list), Hadj.
    by destruct (terminal_nodes_adj_list st).
  - intros Hne Hcov.
    destruct (get_batched_adjacency_lists_total dev asts Hcov)
      as [[[adj m] inv] H].
    exists adj, m, inv. split; [done | by eapply Hfour].
Qed.

Lemma conditional_chain_inclusion_witness :
  (∃ adj m inv,
     get_batched_adjacency_lists "cpu" [Samples.tree_plain; Samples.tree_single]
       = Ok (adj, m, inv) ∧ length adj = 2)
  ∧ (∀ adj m inv,
       get_batched_adjacency_lists "cpu" [Samples.tree_plain; Samples.tree_a]
         = Ok (adj, m, inv) → length adj = 4).
Proof.
  split.
  - apply (proj1 (conditional_chain_inclusion "cpu"
                    [Samples.tree_plain; Samples.tree_single])). reflexivity.
  - apply (proj1 (proj2 (conditional_chain_inclusion "cpu"
                           [Samples.tree_plain; Samples.tree_a]))).
    vm_compute. discriminate.
Defined.

(** ** Per-tree blocks of combined ids *)

Lemma edge_endpoints_fst ast_id edges k :
  k ∈ edge_endpoints ast_id edges → k.1 = ast_id.
Proof.
  induction edges as [|edge edges IH]; simpl; intros Hin.
  - by apply elem_of_nil in Hin.
  - apply elem_of_cons in Hin as [->|Hin]; [done|].
    apply elem_of_cons in Hin as [->|Hin]; [done | auto].
Qed.

Lemma batch_endpoints_from_ge ast_id asts k :
  k ∈ batch_endpoints_from ast_id asts → ast_id ≤ k.1.
Proof.
  revert ast_id. induction asts as [|t asts IH]; intros ast_id Hin; simpl in Hin.
  - by apply elem_of_nil in Hin.
  - apply elem_of_app in Hin as [Hin|Hin].
    + apply edge_endpoints_fst in Hin. lia.
    + apply IH in Hin. lia.
Qed.

Lemma edge_endpoints_sorted ast_id edges :
  StronglySorted by_tree (edge_endpoints ast_id edges).
Proof.
  assert (∀ l : list tree_node, (∀ k, k ∈ l → k.1 = ast_id) →
            StronglySorted by_tree l) as Hall.
  { induction l as [|x l IH]; intros Hl; constructor.
    - apply IH. intros k Hk. apply Hl. by right.
    - apply Forall_forall. intros k Hk. unfold by_tree.
      rewrite (Hl x), (Hl k); [done | by right | left]. }
  apply Hall. intros k. apply edge_endpoints_fst.
Qed.

Lemma batch_endpoints_sorted ast_id asts :
  StronglySorted by_tree (batch_endpoints_from ast_id asts).
Proof.
  revert ast_id. induction asts as [|t asts IH]; intros ast_id; simpl.
  - constructor.
  - apply StronglySorted_app_2; [|apply edge_endpoints_sorted | apply IH].
    intros k1 k2 H1 H2. apply edge_endpoints_fst in H1.
    apply batch_endpoints_from_ge in H2. unfold by_tree. lia.
Qed.

Lemma remove_dups_length_lt (pre : list tree_node) k rest :
  k ∉ pre →
  length (remove_dups pre) < length (remove_dups (pre ++ k :: rest)).
Proof.
  intros Hk.
  assert (k :: remove_dups pre ⊆+ remove_dups (pre ++ k :: rest)) as Hsub.
  { apply NoDup_submseteq.
    - constructor; [by rewrite elem_of_remove_dups | apply NoDup_remove_dups].
    - intros x. rewrite elem_of_cons, !elem_of_remove_dups, elem_of_app,
        elem_of_cons. tauto. }
  apply submseteq_length in Hsub. simpl in Hsub. lia.
Qed.

(** Ids grow with the tree index. *)
Lemma assign_ids_by_tree ks k1 k2 c1 c2 :
  StronglySorted by_tree ks →
  OrderedDict.get k1 (assign_ids [] ks) = Some c1 →
  OrderedDict.get k2 (assign_ids [] ks) = Some c2 →
  k1.1 < k2.1 → c1 < c2.
Proof.
  intros Hsorted H1 H2 Hlt.
  assert (k1 ∈ ks) as Hin1 by (apply assign_ids_keys, get_is_Some; eauto).
  assert (k2 ∈ ks) as Hin2 by (apply assign_ids_keys, get_is_Some; eauto).
  apply list_elem_of_split_l in Hin2 as (pre2 & post2 & Heq2 & Hpre2).
  assert (k1 ∈ pre2) as Hin.
  { rewrite Heq2 in Hin1. apply elem_of_app in Hin1 as [?|Hin1]; [done|].
    rewrite Heq2 in Hsorted. apply StronglySorted_app_1_r in Hsorted.
    apply StronglySorted_cons in Hsorted as [Hall _].
    apply elem_of_cons in Hin1 as [->|Hin1]; [lia|].
    rewrite Forall_forall in Hall. specialize (Hall _ Hin1).
    unfold by_tree in Hall. lia. }
  apply list_elem_of_split_l in Hin as (pre1 & rest & Heq1 & Hpre1).
  rewrite (assign_ids_first_encounter ks pre2 k2 post2 Heq2 Hpre2) in H2.
  rewrite (assign_ids_first_encounter ks pre1 k1 (rest ++ k2 :: post2)) in H1;
    [|by rewrite Heq2, Heq1, <- app_assoc | done].
  injection H1 as <-. injection H2 as <-. rewrite Heq1.
  by apply remove_dups_length_lt.
Qed.

(** C10: whenever [get_batched_adjacency_lists] returns, every combined id
    of tree [i] is strictly below every combined id of a later tree [j],
    and the combined ids of one tree form a contiguous interval: an
    integer between two ids of tree [i] is again an id of tree [i]. *)
Theorem tree_ids_contiguous_in_batch_order dev asts adj m inv :
  get_batched_adjacency_lists dev asts = Ok (adj, m, inv) →
  (∀ i j ci cj, i < j → ids_of_tree m i ci → ids_of_tree m j cj → ci < cj)
  ∧ (∀ i a b c, ids_of_tree m i a → ids_of_tree m i c → a ≤ b ≤ c →
       ids_of_tree m i b).
Proof.
  intros H. pose proof (get_batched_adjacency_lists_counted _ _ _ _ _ H) as Hc.
  apply get_batched_adjacency_lists_Ok in H as (_ & _ & Hm & _).
  assert (∀ i j ci cj, i < j → ids_of_tree m i ci → ids_of_tree m j cj →
            ci < cj) as Horder.
  { intros i j ci cj Hlt [ni Hi] [nj Hj]. subst m.
    eapply (assign_ids_by_tree _ (i, ni) (j, nj));
      [apply batch_endpoints_sorted | done | done | done]. }
  split; [done|].
  intros i a b c Ha [nc Hcc] Hab.
  assert (b < length m) as Hb
    by (pose proof (counted_get_lt _ _ _ Hc Hcc); lia).
  destruct (counted_image _ _ Hc Hb) as [[j n] Hk].
  destruct (lt_eq_lt_dec j i) as [[Hlt|Heq]|Hgt].
  - assert (b < a) by (eapply (Horder j i); [done | by exists n | done]). lia.
  - subst j. by exists n.
  - assert (c < b) by (eapply (Horder i j); [done | by exists nc | by exists n]).
    lia.
Qed.

Lemma tree_ids_contiguous_in_batch_order_witness :
  (ids_of_tree [((0, 0%Z), 0); ((0, 2%Z), 1); ((0, 1%Z), 2);
                ((2, 0%Z), 3); ((2, 2%Z), 4); ((2, 1%Z), 5)] 0 2
   ∧ ids_of_tree [((0, 0%Z), 0); ((0, 2%Z), 1); ((0, 1%Z), 2);
                  ((2, 0%Z), 3); ((2, 2%Z), 4); ((2, 1%Z), 5)] 2 3)
  ∧ 2 < 3.
Proof.
  assert (ids_of_tree [((0, 0%Z), 0); ((0, 2%Z), 1); ((0, 1%Z), 2);
                       ((2, 0%Z), 3); ((2, 2%Z), 4); ((2, 1%Z), 5)] 0 2) as H0
    by (exists 1%Z; reflexivity).
  assert (ids_of_tree [((0, 0%Z), 0); ((0, 2%Z), 1); ((0, 1%Z), 2);
                       ((2, 0%Z), 3); ((2, 2%Z), 4); ((2, 1%Z), 5)] 2 3) as H2
    by (exists 0%Z; reflexivity).
  destruct (tree_ids_contiguous_in_batch_order "cpu"
              [Samples.tree_a; Samples.tree_single; Samples.tree_plain]
              _ _ _ eq_refl) as [Horder _].
  split; [by split|]. apply (Horder 0 2 2 3); [lia | exact H0 | exact H2].
Defined.

(** ** Initial feature indices *)

Lemma list_getitem_Ok {A : Type} (l : list A) i x :
  list_getitem l i = Ok x ↔ l !! i = Some x.
Proof.
  unfold list_getitem. destruct (l !! i); split; intros; by simplify_eq.
Qed.

Lemma dict_getitem_Ok {K A : Type} `{Countable K} (d : gmap K A) k x :
  dict_getitem d k = Ok x ↔ d !! k = Some x.
Proof.
  unfold dict_getitem. destruct (d !! k); split; intros; by simplify_eq.
Qed.

Lemma init_loop_spec vocab grammar asts i items indices r :
  init_loop vocab grammar asts i items indices = Ok r →
  length r = length indices
  ∧ (∀ p, p < i → r !! p = indices !! p)
  ∧ (∀ j item, items !! j = Some item → i + j < length indices →
       ∃ idx, init_index vocab grammar asts item = Ok idx
              ∧ r !! (i + j) = Some idx).
Proof.
  revert i indices. induction items as [|item items IH]; intros i indices H;
    simpl in H.
  - injection H as <-. split_and!.
    + done.
    + done.
    + intros j item Hj. by rewrite lookup_nil in Hj.
  - inv_bind H. rename a into idx.
    destruct (IH _ _ H) as (Hlen & Hbelow & Hat).
    rewrite length_insert in Hlen. split_and!; [done | |].
    + intros p Hp. rewrite Hbelow by lia. apply list_lookup_insert_ne. lia.
    + intros [|j] item' Hj Hin; simpl in Hj.
      * injection Hj as <-. exists idx. split; [done|].
        rewrite Nat.add_0_r, Hbelow by lia. apply list_lookup_insert_eq. lia.
      * rewrite length_insert in Hat.
        replace (i + S j) with (S i + j) by lia. apply Hat; [done | lia].
Qed.

Lemma init_indices_spec vocab grammar asts inv indices :
  init_indices vocab grammar asts inv = Ok indices →
  length indices = length inv
  ∧ ∀ j item, inv !! j = Some item →
      ∃ idx, init_index vocab grammar asts item = Ok idx
             ∧ indices !! j = Some idx.
Proof.
  unfold init_indices, OrderedDict.items.
  intros (Hlen & _ & Hat)%init_loop_spec. rewrite length_replicate in Hlen, Hat.
  split; [done|]. intros j item Hj. apply (Hat j item Hj).
  simpl. by eapply lookup_lt_Some.
Qed.

(** C5: for every combined id [c], assigned to the key [k], the index
    stored at position [c] is the vocabulary index of the node's variable
    identifier when the node is terminal, and the grammar index of its
    syntax category plus the vocabulary's size otherwise.  With a
    vocabulary that numbers its entries below its size and a grammar that
    numbers from 0, terminal indices lie in [0, size) and non-terminal
    indices in [size, ∞): the two ranges are disjoint. *)
Theorem initial_feature_index vocab grammar dev asts adj m inv indices :
  get_batched_adjacency_lists dev asts = Ok (adj, m, inv) →
  init_indices vocab grammar asts inv = Ok indices →
  length indices = length m
  ∧ ∀ k c, OrderedDict.get k m = Some c →
      ∃ node idx, node_of asts k = Some node ∧ indices !! c = Some idx
        ∧ (if is_variable_node node
           then source_getitem vocab (var_id node) = Ok idx
           else ∃ g, syntax_type_to_id grammar !! node_type node = Some g
                     ∧ idx = (g + Z.of_nat (source_len vocab))%Z)
        ∧ (vocab_indices_in_range vocab → grammar_indices_nonneg grammar →
           if is_variable_node node
           then (0 ≤ idx < Z.of_nat (source_len vocab))%Z
           else (Z.of_nat (source_len vocab) ≤ idx)%Z).
Proof.
  intros H Hind.
  pose proof (get_batched_adjacency_lists_counted _ _ _ _ _ H) as Hc.
  apply get_batched_adjacency_lists_Ok in H as (_ & _ & _ & Hinv & _).
  apply init_indices_spec in Hind as (Hlen & Hat).
  split; [by rewrite Hlen, Hinv, length_map|].
  intros [tree_id tree_node_id] c Hk.
  apply (counted_get_lookup _ _ _ Hc) in Hk.
  destruct (Hat c (c, (tree_id, tree_node_id))) as (idx & Hidx & Hc_idx).
  { rewrite Hinv. change (map ?f m) with (f <$> m).
    by rewrite list_lookup_fmap, Hk. }
  unfold init_index in Hidx. inv_bind Hidx.
  rename a into syntax_tree, a0 into node.
  apply list_getitem_Ok in Ha. apply dict_getitem_Ok in Ha0.
  exists node, idx. split_and!; [| done | |].
  - unfold node_of. simpl. by rewrite Ha.
  - destruct (is_variable_node node); [done|].
    inv_bind Hidx. apply dict_getitem_Ok in Ha1. eauto.
  - intros Hvocab Hgrammar. destruct (is_variable_node node).
    + by apply (Hvocab (var_id node)).
    + inv_bind Hidx. apply dict_getitem_Ok, Hgrammar in Ha1. lia.
Qed.

Lemma initial_feature_index_witness :
  ∃ node idx,
    node_of [Samples.tree_a] (0, 2%Z) = Some node
    ∧ [2; 1; 0]%Z !! 1 = Some idx
    ∧ (if is_variable_node node
       then source_getitem Samples.sample_vocab (var_id node) = Ok idx
       else ∃ g, syntax_type_to_id Samples.sample_grammar !! node_type node = Some g
                 ∧ idx = (g + Z.of_nat (source_len Samples.sample_vocab))%Z)
    ∧ (vocab_indices_in_range Samples.sample_vocab →
       grammar_indices_nonneg Samples.sample_grammar →
       if is_variable_node node
       then (0 ≤ idx < Z.of_nat (source_len Samples.sample_vocab))%Z
       else (Z.of_nat (source_len Samples.sample_vocab) ≤ idx)%Z).
Proof.
  eapply (initial_feature_index Samples.sample_vocab Samples.sample_grammar
            "cpu" [Samples.tree_a]).
  - vm_compute. reflexivity.
  - vm_compute. reflexivity.
  - vm_compute. reflexivity.
Defined.

(** ** Shapes in [unpack_batch_encoding] *)

Lemma shaped_replicate {A : Type} b n (x : A) :
  shaped b n (replicate b (replicate n x)).
Proof.
  split; [apply length_replicate|].
  apply Forall_replicate, length_replicate.
Qed.

Lemma shaped_insert {A : Type} b n (t : list (list A)) i row :
  shaped b n t → length row = n → shaped b n (<[i := row]> t).
Proof.
  intros [Hb Hn] Hrow. split; [by rewrite length_insert|].
  by apply Forall_insert.
Qed.

Lemma shaped_lookup {A : Type} b n (t : list (list A)) i row :
  shaped b n t → t !! i = Some row → length row = n.
Proof. intros [_ Hn] Hi. by eapply (Forall_lookup_1 _ _ _ _ Hn). Qed.

Lemma list_comp_Forall2 {A B : Type} (f : A → result B) xs ys :
  list_comp f xs = Ok ys → Forall2 (λ x y, f x = Ok y) xs ys.
Proof.
  revert ys. induction xs as [|x xs IH]; intros ys H; simpl in H.
  - injection H as <-. constructor.
  - inv_bind H. subst ys. constructor; auto.
Qed.

Lemma slice_assign_length {A : Type} (row vals row' : list A) :
  slice_assign row vals = Ok row' → length row' = length row.
Proof.
  unfold slice_assign. cbv zeta. case_decide as Hlen.
  - intros [= <-]. rewrite length_app, length_drop. lia.
  - destruct vals as [|v [|??]]; [done | | done].
    intros [= <-]. rewrite length_app, length_replicate, length_drop.
    destruct (length row); simpl; lia.
Qed.

Lemma slice_fill_length {A : Type} (row : list A) k v :
  length (slice_fill row k v) = length row.
Proof.
  unfold slice_fill. rewrite length_app, length_replicate, length_drop. lia.
Qed.

Lemma unpack_body_shaped m e_id st st' b n :
  unpack_body m e_id st = Ok st' →
  shaped b n st.1 → shaped b n st.2 → shaped b n st'.1 ∧ shaped b n st'.2.
Proof.
  destruct st as [index masks]. unfold unpack_body. cbv zeta.
  intros H Hi Hm. inv_bind H. subst st'. simpl in *.
  apply list_getitem_Ok in Ha, Ha1. apply slice_assign_length in Ha0.
  split; apply shaped_insert; try done.
  - rewrite Ha0. by eapply shaped_lookup.
  - rewrite slice_fill_length. by eapply shaped_lookup.
Qed.

Lemma unpack_loop_shaped m e_id trees st st' b n :
  unpack_loop m e_id trees st = Ok st' →
  shaped b n st.1 → shaped b n st.2 → shaped b n st'.1 ∧ shaped b n st'.2.
Proof.
  revert e_id st. induction trees as [|t trees IH]; intros e_id st H Hi Hm;
    simpl in H.
  - by injection H as <-.
  - inv_bind H. destruct (unpack_body_shaped _ _ _ _ _ _ Ha Hi Hm).
    by eapply IH.
Qed.

Lemma gather_shaped {scalar : Type} (flattened : list (list scalar)) index t b n :
  gather flattened index = Ok t → shaped b n index → shaped b n t.
Proof.
  unfold gather. intros H%list_comp_Forall2 [Hb Hn]. split.
  - by rewrite <- (Forall2_length _ _ _ H).
  - clear Hb. induction H as [|irow trow index t Hrow _ IH]; [constructor|].
    apply Forall_cons in Hn as [Hlen Hn]. constructor; [|auto].
    apply list_comp_Forall2, Forall2_length in Hrow. lia.
Qed.

Lemma inverted_byte_mask_shaped masks b n :
  shaped b n masks → shaped b n (inverted_byte_mask masks).
Proof.
  intros [Hb Hn]. unfold inverted_byte_mask. split; [by rewrite length_map|].
  clear Hb. induction Hn as [|row masks Hrow _ IH]; simpl; constructor; [|done].
  by rewrite length_map.
Qed.

Lemma masked_fill_shaped {scalar : Type} (t : list (list (list scalar)))
    mask (v : scalar) b n :
  shaped b n t → shaped b n mask → shaped b n (masked_fill t mask v).
Proof.
  intros [Hb Hn] [Hb' Hn']. unfold masked_fill. split.
  - rewrite length_zip_with. lia.
  - clear Hb Hb'. revert mask Hn'.
    induction Hn as [|row t Hrow _ IH]; intros [|mrow mask] Hn'; simpl;
      try constructor.
    + apply Forall_cons in Hn' as [Hm _]. rewrite length_zip_with. lia.
    + apply Forall_cons in Hn' as [_ Hn']. by apply IH.
Qed.

Lemma foldl_max_spec (l : list nat) x :
  x ≤ foldl Nat.max x l
  ∧ (∀ y, y ∈ l → y ≤ foldl Nat.max x l)
  ∧ (foldl Nat.max x l = x ∨ foldl Nat.max x l ∈ l).
Proof.
  revert x. induction l as [|y l IH]; intros x; simpl.
  - split_and!; [done | | by left]. intros y Hy. by apply elem_of_nil in Hy.
  - destruct (IH (Nat.max x y)) as (Hge & Hall & Hin). split_and!.
    + lia.
    + intros z [->|Hz]%elem_of_cons; [lia | auto].
    + destruct Hin as [Heq|Hin]; [|right; by right].
      destruct (Nat.max_spec x y) as [[_ Hmax]|[_ Hmax]]; rewrite Heq, Hmax.
      * right. left.
      * by left.
Qed.

Lemma py_max_spec (l : list nat) n :
  py_max l = Ok n → n ∈ l ∧ ∀ y, y ∈ l → y ≤ n.
Proof.
  destruct l as [|x l]; [done|]. simpl. intros [= <-].
  destruct (foldl_max_spec l x) as (Hge & Hall & Hin). split.
  - destruct Hin as [->|Hin]; [left | by right].
  - intros y [->|Hy]%elem_of_cons; auto.
Qed.

Lemma unpack_batch_encoding_Ok {scalar : Type} (zero : scalar)
    flattened trees m out :
  unpack_batch_encoding zero flattened trees m = Ok out →
  ∃ n gathered,
    py_max (size <$> trees) = Ok n
    ∧ shaped (length trees) n gathered
    ∧ shaped (length trees) n (batch_tree_node_masks out)
    ∧ batch_tree_node_encoding out
      = masked_fill gathered (inverted_byte_mask (batch_tree_node_masks out)) zero.
Proof.
  unfold unpack_batch_encoding. intros H. inv_bind H.
  rename a into n, a0 into st, a1 into gathered. exists n, gathered.
  destruct (unpack_loop_shaped _ _ _ _ _ (length trees) n Ha0) as [Hi Hm];
    [apply shaped_replicate | apply shaped_replicate |].
  subst out. simpl. split_and!; [done | | done | done].
  by eapply gather_shaped.
Qed.

(** ** The padded output of [unpack_batch_encoding] *)

Lemma masked_fill_lookup {scalar : Type} (t : list (list (list scalar)))
    masks (zero : scalar) i j row vec mask_row b :
  t !! i = Some row → row !! j = Some vec →
  masks !! i = Some mask_row → mask_row !! j = Some b →
  ∃ out_row,
    masked_fill t (inverted_byte_mask masks) zero !! i = Some out_row
    ∧ out_row !! j
      = Some (if decide (((1 - b) mod 256)%Z = 0%Z) then vec
              else map (λ _, zero) vec).
Proof.
  intros Hi Hj Hmi Hmj. unfold masked_fill, inverted_byte_mask.
  change (map ?f masks) with (f <$> masks).
  eexists. rewrite lookup_zip_with, Hi, list_lookup_fmap, Hmi. simpl.
  split; [done|].
  change (map ?f mask_row) with (f <$> mask_row).
  by rewrite lookup_zip_with, Hj, list_lookup_fmap, Hmj.
Qed.

(** C7: whenever [unpack_batch_encoding] returns, every position of the
    mask has a position in the output tensor, and where the mask holds 0
    every component of the output vector is the fill value 0, whatever the
    flattened encodings were. *)
Theorem zero_padding {scalar : Type} (zero : scalar) flattened trees m out :
  unpack_batch_encoding zero flattened trees m = Ok out →
  ∀ i j mask_row,
    batch_tree_node_masks out !! i = Some mask_row →
    mask_row !! j = Some 0%Z →
    ∃ enc_row vec,
      batch_tree_node_encoding out !! i = Some enc_row
      ∧ enc_row !! j = Some vec
      ∧ Forall (λ x, x = zero) vec.
Proof.
  intros (n & gathered & _ & Hg & Hm & ->)%unpack_batch_encoding_Ok
    i j mask_row Hi Hj.
  assert (i < length trees) as Hlt
    by (destruct Hm as [<- _]; by eapply lookup_lt_Some).
  destruct (lookup_lt_is_Some_2 gathered i) as [row Hrow];
    [by destruct Hg as [-> _]|].
  assert (j < length row) as Hltj.
  { rewrite (shaped_lookup _ _ _ _ _ Hg Hrow),
      <- (shaped_lookup _ _ _ _ _ Hm Hi). by eapply lookup_lt_Some. }
  destruct (lookup_lt_is_Some_2 row j Hltj) as [vec Hvec].
  destruct (masked_fill_lookup gathered (batch_tree_node_masks out) zero
              i j row vec mask_row 0%Z Hrow Hvec Hi Hj) as (out_row & Ho & Hv).
  exists out_row, (map (λ _, zero) vec). split_and!; [done | done |].
  clear. induction vec; simpl; constructor; done.
Qed.

Lemma zero_padding_witness :
  ∃ enc_row vec,
    [[[30; 31]; [10; 11]; [20; 21]]; [[0; 0]; [0; 0]; [0; 0]]]%Z !! 1
      = Some enc_row
    ∧ enc_row !! 2 = Some vec
    ∧ Forall (λ x, x = 0%Z) vec.
Proof.
  eapply (zero_padding 0%Z [[30; 31]; [20; 21]; [10; 11]]%Z
            [Samples.tree_a; Samples.tree_single]
            [((0, 0%Z), 0); ((0, 2%Z), 1); ((0, 1%Z), 2)]
            _ eq_refl 1 2 [0; 0; 0]%Z).
  - reflexivity.
  - reflexivity.
Defined.

(** The second dimension as the code computes it: whenever
    [unpack_batch_encoding] returns, the rows of the output tensor and of
    the mask are as long as the largest [size] among all the trees of the
    batch; the first dimension is the number of trees. *)
Lemma unpack_second_dimension {scalar : Type} (zero : scalar)
    flattened trees m out :
  unpack_batch_encoding zero flattened trees m = Ok out →
  ∃ max_node_num,
    (∃ t, t ∈ trees ∧ size t = max_node_num)
    ∧ (∀ t, t ∈ trees → size t ≤ max_node_num)
    ∧ shaped (length trees) max_node_num (batch_tree_node_encoding out)
    ∧ shaped (length trees) max_node_num (batch_tree_node_masks out).
Proof.
  intros (n & gathered & Hmax & Hg & Hm & ->)%unpack_batch_encoding_Ok.
  apply py_max_spec in Hmax as [Hin Hall]. exists n. split_and!.
  - apply list_elem_of_fmap in Hin as (t & -> & Ht). by exists t.
  - intros t Ht. apply Hall, list_elem_of_fmap. by exists t.
  - apply masked_fill_shaped; [done|]. by apply inverted_byte_mask_shaped.
  - done.
Qed.

(** ** The empty batch *)

(** C9, as the code has it: on an empty batch nothing is rejected before
    the engine runs.  The mapping is empty, two empty tree relations over 0
    nodes are built, the engine is invoked once on the empty sequence of
    initial vectors, and only then, if the engine returned, unpacking
    raises [ValueError] from the maximum over an empty sequence. *)
Theorem empty_batch_reaches_engine {scalar : Type} (zero : scalar)
    (self : GraphASTEncoder scalar) :
  let relations :=
    [ {| node_num := 0; adj_list := []; adj_device := Some (device self) |};
      {| node_num := 0; adj_list := []; adj_device := Some (device self) |} ] in
  (forward zero self []).1 = [([], relations)]
  ∧ (forward zero self []).2
    = match gnn_compute_node_representations self [] relations with
      | Ok _ => Raise ValueError
      | Raise e => Raise e
      end.
Proof.
  unfold forward, traced_bind, call_gnn, lift_result. simpl.
  destruct (gnn_compute_node_representations self [] _); simpl; done.
Qed.

(** C9, as the specification words it, fails: the engine is called on the
    empty batch, and the error that ends the call comes after it. *)
Lemma empty_batch_counterexample :
  (forward 0%Z Samples.sample_encoder []).1 ≠ []
  ∧ (forward 0%Z Samples.sample_encoder []).2 = Raise ValueError.
Proof. split; [discriminate | reflexivity]. Qed.

(** * Further properties of the encoder *)

(** ** When [get_batched_adjacency_lists] returns *)

Lemma terminal_loop_raises ast_id pairs st e :
  for_each (terminal_body ast_id) pairs st = Raise e → e = KeyError.
Proof.
  revert st. induction pairs as [|pair pairs IH]; intros st H; simpl in H;
    [done|].
  destruct (terminal_body ast_id st pair) as [st1|e1] eqn:Hbody; simpl in H.
  - by eapply IH.
  - injection H as <-. unfold terminal_body, OrderedDict.getitem in Hbody.
    cbv zeta in Hbody.
    destruct (OrderedDict.get (ast_id, pair.1) _); simpl in Hbody;
      [|by injection Hbody].
    destruct (OrderedDict.get (ast_id, pair.2) _); simpl in Hbody;
      [done | by injection Hbody].
Qed.

Lemma batch_loop_raises ast_id asts st e :
  batch_loop ast_id asts st = Raise e → e = KeyError.
Proof.
  revert ast_id st. induction asts as [|t asts IH]; intros ast_id st H;
    simpl in H; [done|].
  destruct (tree_body ast_id st t) as [st1|e1] eqn:Hbody; simpl in H.
  - by eapply IH.
  - injection H as <-. by eapply terminal_loop_raises.
Qed.

Lemma terminal_loop_covered ast_id pairs st st' :
  for_each (terminal_body ast_id) pairs st = Ok st' →
  ∀ pair, pair ∈ pairs →
    (ast_id, pair.1) ∈ (tree_node2batch_graph_node st).*1
    ∧ (ast_id, pair.2) ∈ (tree_node2batch_graph_node st).*1.
Proof.
  revert st. induction pairs as [|p pairs IH]; intros st H pair Hin;
    simpl in H.
  - by apply elem_of_nil in Hin.
  - inv_bind H. pose proof (terminal_body_dict _ _ _ _ Ha) as Hd.
    apply elem_of_cons in Hin as [->|Hin].
    + unfold terminal_body, OrderedDict.getitem in Ha. cbv zeta in Ha.
      destruct (OrderedDict.get (ast_id, p.1) _) as [c|] eqn:H1;
        simpl in Ha; [|done].
      destruct (OrderedDict.get (ast_id, p.2) _) as [n|] eqn:H2;
        simpl in Ha; [|done].
      split; apply get_is_Some; eauto.
    + rewrite <- Hd. by eapply IH.
Qed.

Lemma batch_loop_covered ast_id asts st st' :
  batch_loop ast_id asts st = Ok st' →
  (∀ k, k ∈ (tree_node2batch_graph_node st).*1 → k.1 < ast_id) →
  ∀ i t, asts !! i = Some t → chain_covered (ast_id + i) t.
Proof.
  revert ast_id st. induction asts as [|t0 asts IH]; intros ast_id st H Hold i t Hi.
  - by rewrite lookup_nil in Hi.
  - simpl in H. inv_bind H. rename a into st1. unfold tree_body in Ha.
    pose proof (terminal_loop_dict _ _ _ _ Ha) as Hd.
    rewrite edge_loop_dict in Hd.
    destruct i as [|i]; simpl in Hi.
    + injection Hi as <-. rewrite Nat.add_0_r. intros pair Hp.
      pose proof (terminal_loop_covered _ _ _ _ Ha pair Hp) as Hcov.
      rewrite edge_loop_dict, !assign_ids_keys_from in Hcov.
      destruct Hcov as [[H1|H1] [H2|H2]]; try done;
        try (apply Hold in H1; simpl in H1; lia);
        try (apply Hold in H2; simpl in H2; lia).
    + replace (ast_id + S i) with (S ast_id + i) by lia.
      eapply (IH _ _ H); [|done].
      intros k. rewrite Hd, assign_ids_keys_from. intros [Hk|Hk].
      * apply Hold in Hk. lia.
      * apply edge_endpoints_fst in Hk. lia.
Qed.

(** X1: [get_batched_adjacency_lists] returns exactly when every
    adjacent-terminal pair names endpoints of parent/child edges of its own
    tree; otherwise it raises, and the only exception it raises is
    [KeyError]. *)
Theorem get_batched_adjacency_lists_returns_iff dev asts :
  match get_batched_adjacency_lists dev asts with
  | Ok _ => batch_chain_covered asts
  | Raise e => e = KeyError ∧ ¬ batch_chain_covered asts
  end.
Proof.
  destruct (get_batched_adjacency_lists dev asts) as [r|e] eqn:H.
  - unfold get_batched_adjacency_lists in H. inv_bind H.
    intros i t Hi.
    apply (batch_loop_covered 0 asts initial_state a Ha); [|done].
    intros k Hk. by apply elem_of_nil in Hk.
  - split.
    + unfold get_batched_adjacency_lists in H.
      destruct (batch_loop 0 asts initial_state) eqn:Hloop; simpl in H; [done|].
      injection H as <-. by eapply batch_loop_raises.
    + intros Hcov.
      destruct (get_batched_adjacency_lists_total dev asts Hcov) as [r Hr].
      congruence.
Qed.

(** ** The inverse dictionary *)

Lemma get_swap_counted d c k :
  counted d →
  OrderedDict.get c ((λ kv : tree_node * nat, (kv.2, kv.1)) <$> d) = Some k
  ↔ OrderedDict.get k d = Some c.
Proof.
  intros Hd.
  assert (NoDup ((λ kv : tree_node * nat, (kv.2, kv.1)) <$> d).*1) as Hnd.
  { rewrite <- list_fmap_compose.
    assert ((fst ∘ (λ kv : tree_node * nat, (kv.2, kv.1))) <$> d = d.*2) as ->
      by by apply list_fmap_ext.
    destruct Hd as [_ ->]. apply NoDup_seq. }
  split.
  - intros Hg. apply get_Some_elem, list_elem_of_fmap in Hg as ([k' c'] & Heq & Hin).
    simpl in Heq. injection Heq as -> ->. apply elem_get; [apply Hd | done].
  - intros Hg. apply elem_get; [done|].
    apply list_elem_of_fmap. exists (k, c). split; [done|].
    by apply get_Some_elem.
Qed.

(** X2: [batch_graph_node2tree_node] is the exact inverse of
    [tree_node2batch_graph_node]: a combined id looks up to a key exactly
    when the key looks up to it, and its keys are 0, 1, 2, ... in
    insertion order. *)
Theorem inverse_mapping_round_trip dev asts adj m inv :
  get_batched_adjacency_lists dev asts = Ok (adj, m, inv) →
  (∀ k c, OrderedDict.get c inv = Some k ↔ OrderedDict.get k m = Some c)
  ∧ OrderedDict.keys inv = seq 0 (length m)
  ∧ length inv = length m.
Proof.
  intros H. pose proof (get_batched_adjacency_lists_counted _ _ _ _ _ H) as Hc.
  apply get_batched_adjacency_lists_Ok in H as (_ & _ & _ & -> & _).
  change (map ?f m) with (f <$> m). split_and!.
  - intros k c. by apply get_swap_counted.
  - unfold OrderedDict.keys. rewrite <- list_fmap_compose.
    destruct Hc as [_ <-]. by apply list_fmap_ext.
  - by rewrite length_fmap.
Qed.

Lemma inverse_mapping_round_trip_witness :
  OrderedDict.get 1 [(0, (0, 0%Z)); (1, (0, 2%Z)); (2, (0, 1%Z))]
    = Some (0, 2%Z)
  ↔ OrderedDict.get (0, 2%Z) [((0, 0%Z), 0); ((0, 2%Z), 1); ((0, 1%Z), 2)]
    = Some 1.
Proof.
  destruct (inverse_mapping_round_trip "cpu" [Samples.tree_a] _ _ _ eq_refl)
    as [Hinv _].
  exact (Hinv (0, 2%Z) 1).
Defined.

(** ** The relations as images of the trees' edges *)

Lemma extends_refl d : extends d d.
Proof. by intros k v. Qed.

Lemma extends_trans d1 d2 d3 : extends d1 d2 → extends d2 d3 → extends d1 d3.
Proof. intros H12 H23 k v Hk. auto. Qed.

Lemma assign_id_extends d k : extends d (assign_id d k).
Proof.
  intros k' v Hk'. destruct (OrderedDict.get k d) as [c|] eqn:Hg.
  - by rewrite (assign_id_old _ _ _ Hg).
  - rewrite (assign_id_new _ _ Hg), get_app. by rewrite Hk'.
Qed.

Lemma assign_ids_extends d ks : extends d (assign_ids d ks).
Proof.
  revert d. induction ks as [|k ks IH]; intros d; [apply extends_refl|].
  eapply extends_trans; [apply assign_id_extends | apply IH].
Qed.

Lemma maps_edge_extends d d' e ids :
  extends d d' → maps_edge d e ids → maps_edge d' e ids.
Proof. intros Hext [H1 H2]. split; auto. Qed.

Lemma setdefault_get (d : list (tree_node * nat)) k v :
  OrderedDict.get k (OrderedDict.setdefault k v d).2
  = Some (OrderedDict.setdefault k v d).1.
Proof.
  unfold OrderedDict.setdefault.
  destruct (OrderedDict.get k d) as [c|] eqn:Hg; simpl; [done|].
  rewrite get_app, Hg. simpl. by rewrite decide_True.
Qed.

(** One step of the edge loop appends the image of the edge under the
    dictionary it leaves. *)
Lemma edge_body_maps ast_id st edge :
  ∃ ids,
    ast_adj_list (edge_body ast_id st edge) = ast_adj_list st ++ [ids]
    ∧ maps_edge (tree_node2batch_graph_node (edge_body ast_id st edge))
        ((ast_id, node_id edge.1), (ast_id, node_id edge.2)) ids.
Proof.
  unfold edge_body.
  pose proof (setdefault_get (tree_node2batch_graph_node st)
                (ast_id, node_id edge.1)
                (length (tree_node2batch_graph_node st))) as H1.
  destruct (OrderedDict.setdefault (ast_id, node_id edge.1) _ _) as [s d1].
  pose proof (setdefault_get d1 (ast_id, node_id edge.2) (length d1)) as H2.
  pose proof (assign_id_extends d1 (ast_id, node_id edge.2)) as Hext.
  unfold assign_id in Hext.
  destruct (OrderedDict.setdefault (ast_id, node_id edge.2) _ _) as [t d2].
  simpl in *. exists (s, t). split; [done|]. split; simpl; auto.
Qed.

Lemma edge_loop_maps ast_id edges st :
  ∃ new,
    ast_adj_list (fold_left (edge_body ast_id) edges st)
    = ast_adj_list st ++ new
    ∧ Forall2 (maps_edge (tree_node2batch_graph_node
                            (fold_left (edge_body ast_id) edges st)))
        ((λ edge : SyntaxNode * SyntaxNode,
            ((ast_id, node_id edge.1), (ast_id, node_id edge.2))) <$> edges)
        new.
Proof.
  revert st. induction edges as [|edge edges IH]; intros st; simpl.
  - exists []. split; [by rewrite app_nil_r | constructor].
  - destruct (edge_body_maps ast_id st edge) as (ids & Hadj & Hmap).
    destruct (IH (edge_body ast_id st edge)) as (new & Hnew & Hall).
    exists (ids :: new). split.
    + by rewrite Hnew, Hadj, <- app_assoc.
    + constructor; [|done]. eapply maps_edge_extends; [|done].
      rewrite edge_loop_dict. apply assign_ids_extends.
Qed.

Lemma terminal_loop_maps ast_id pairs st st' :
  for_each (terminal_body ast_id) pairs st = Ok st' →
  ast_adj_list st' = ast_adj_list st
  ∧ ∃ new,
      terminal_nodes_adj_list st' = terminal_nodes_adj_list st ++ new
      ∧ Forall2 (maps_edge (tree_node2batch_graph_node st))
          ((λ pair : Z * Z, ((ast_id, pair.1), (ast_id, pair.2))) <$> pairs)
          new.
Proof.
  revert st. induction pairs as [|pair pairs IH]; intros st H; simpl in H.
  - injection H as <-. split; [done|]. exists [].
    split; [by rewrite app_nil_r | constructor].
  - inv_bind H. rename a into st1.
    destruct (IH _ H) as (Hadj & new & Hnew & Hall).
    pose proof (terminal_body_dict _ _ _ _ Ha) as Hd.
    unfold terminal_body, OrderedDict.getitem in Ha. cbv zeta in Ha.
    destruct (OrderedDict.get (ast_id, pair.1) _) as [c|] eqn:H1;
      simpl in Ha; [|done].
    destruct (OrderedDict.get (ast_id, pair.2) _) as [n|] eqn:H2;
      simpl in Ha; [|done].
    injection Ha as <-. simpl in *. split; [done|].
    exists ((c, n) :: new). split.
    + by rewrite Hnew, <- app_assoc.
    + constructor; [by split | done].
Qed.

Lemma batch_loop_maps ast_id asts st st' :
  batch_loop ast_id asts st = Ok st' →
  ∃ new_tree new_chain,
    ast_adj_list st' = ast_adj_list st ++ new_tree
    ∧ terminal_nodes_adj_list st' = terminal_nodes_adj_list st ++ new_chain
    ∧ Forall2 (maps_edge (tree_node2batch_graph_node st'))
        (batch_edges_from ast_id asts) new_tree
    ∧ Forall2 (maps_edge (tree_node2batch_graph_node st'))
        (batch_chain_from ast_id asts) new_chain.
Proof.
  revert ast_id st. induction asts as [|t asts IH]; intros ast_id st H;
    simpl in H.
  - injection H as <-. exists [], []. rewrite !app_nil_r.
    split_and!; [done | done | constructor | constructor].
  - inv_bind H. rename a into st1. unfold tree_body in Ha.
    destruct (edge_loop_maps ast_id (adjacency_list t) st) as (nt & Hnt & Hmt).
    destruct (terminal_loop_maps _ _ _ _ Ha) as (Hadj & nc & Hnc & Hmc).
    destruct (IH _ _ H) as (nt' & nc' & Hnt' & Hnc' & Hmt' & Hmc').
    pose proof (terminal_loop_dict _ _ _ _ Ha) as Hd.
    assert (extends (tree_node2batch_graph_node st1)
              (tree_node2batch_graph_node st')) as Hext.
    { rewrite (batch_loop_dict _ _ _ _ H). apply assign_ids_extends. }
    exists (nt ++ nt'), (nc ++ nc'). split_and!.
    + by rewrite Hnt', Hadj, Hnt, <- app_assoc.
    + by rewrite Hnc', Hnc, edge_loop_chain, <- app_assoc.
    + simpl. apply Forall2_app; [|done].
      eapply Forall2_impl; [exact Hmt|].
      intros e ids. rewrite <- Hd. by apply maps_edge_extends.
    + simpl. apply Forall2_app; [|done].
      eapply Forall2_impl; [exact Hmc|].
      intros e ids. rewrite <- Hd. by apply maps_edge_extends.
Qed.

Lemma maps_edge_lt d e ids :
  counted d → maps_edge d e ids → ids.1 < length d ∧ ids.2 < length d.
Proof. intros Hd [H1 H2]. split; by eapply counted_get_lt. Qed.

(** X3: whenever the function returns, the forward-tree relation lists,
    tree by tree and edge by edge, the pair of combined ids that the
    returned mapping gives to the parent and to the child of each edge;
    the reverse-tree relation lists the same pairs swapped; every id that
    occurs is below [node_num]. *)
Theorem tree_relation_is_image_of_edges dev asts adj m inv :
  get_batched_adjacency_lists dev asts = Ok (adj, m, inv) →
  ∃ fwd,
    relation_edges adj 0 = Some fwd
    ∧ relation_edges adj 1 = Some (prod_swap <$> fwd)
    ∧ Forall2 (maps_edge m) (batch_edges_from 0 asts) fwd
    ∧ Forall (λ ids, ids.1 < length m ∧ ids.2 < length m) fwd
    ∧ Forall (λ a, node_num a = length m) adj.
Proof.
  intros H. pose proof (get_batched_adjacency_lists_counted _ _ _ _ _ H) as Hc.
  unfold get_batched_adjacency_lists in H. inv_bind H. rename a into st.
  subst adj m inv.
  destruct (batch_loop_maps _ _ _ _ Ha) as (nt & nc & Hnt & _ & Hmt & _).
  destruct (batch_loop_mirrored _ _ _ _ Ha) as [Hrev _]; [by split|].
  simpl in Hnt. exists nt. unfold relation_edges.
  split_and!.
  - destruct (terminal_nodes_adj_list st); simpl; by rewrite Hnt.
  - destruct (terminal_nodes_adj_list st); simpl; by rewrite Hrev, Hnt.
  - done.
  - eapply Forall2_Forall_r; [exact Hmt|]. apply Forall_forall.
    intros e _ ids. by apply maps_edge_lt.
  - destruct (terminal_nodes_adj_list st); repeat constructor.
Qed.

Lemma tree_relation_is_image_of_edges_witness :
  ∃ fwd,
    relation_edges Samples.relations_a 0 = Some fwd
    ∧ relation_edges Samples.relations_a 1 = Some (prod_swap <$> fwd)
    ∧ Forall2 (maps_edge Samples.mapping_a)
        (batch_edges_from 0 [Samples.tree_a]) fwd
    ∧ Forall (λ ids, ids.1 < length Samples.mapping_a
                     ∧ ids.2 < length Samples.mapping_a) fwd
    ∧ Forall (λ a, node_num a = length Samples.mapping_a) Samples.relations_a.
Proof.
  apply (tree_relation_is_image_of_edges "cpu" [Samples.tree_a]
           Samples.relations_a Samples.mapping_a Samples.inverse_a).
  reflexivity.
Defined.

(** X4: whenever the function returns, the chain edges are, tree by tree
    and pair by pair, the combined ids that the returned mapping gives to
    the two terminals of each adjacent-terminal pair, all below
    [node_num]; when there is at least one they are the third relation and
    their swaps the fourth, and when there is none no third relation is
    produced. *)
Theorem chain_relation_is_image_of_pairs dev asts adj m inv :
  get_batched_adjacency_lists dev asts = Ok (adj, m, inv) →
  ∃ chain,
    Forall2 (maps_edge m) (batch_chain_from 0 asts) chain
    ∧ Forall (λ ids, ids.1 < length m ∧ ids.2 < length m) chain
    ∧ (chain = [] → relation_edges adj 2 = None)
    ∧ (chain ≠ [] →
       relation_edges adj 2 = Some chain
       ∧ relation_edges adj 3 = Some (prod_swap <$> chain)).
Proof.
  intros H. pose proof (get_batched_adjacency_lists_counted _ _ _ _ _ H) as Hc.
  unfold get_batched_adjacency_lists in H. inv_bind H. rename a into st.
  subst adj m inv.
  destruct (batch_loop_maps _ _ _ _ Ha) as (nt & nc & _ & Hnc & _ & Hmc).
  destruct (batch_loop_mirrored _ _ _ _ Ha) as [_ Hrev]; [by split|].
  simpl in Hnc. exists nc. unfold relation_edges. split_and!.
  - done.
  - eapply Forall2_Forall_r; [exact Hmc|]. apply Forall_forall.
    intros e _ ids. by apply maps_edge_lt.
  - intros ->. by rewrite Hnc.
  - intros Hne. rewrite Hrev, Hnc. by destruct nc.
Qed.

Lemma chain_relation_is_image_of_pairs_witness :
  ∃ chain,
    Forall2 (maps_edge Samples.mapping_a)
      (batch_chain_from 0 [Samples.tree_a]) chain
    ∧ Forall (λ ids, ids.1 < length Samples.mapping_a
                     ∧ ids.2 < length Samples.mapping_a) chain
    ∧ (chain = [] → relation_edges Samples.relations_a 2 = None)
    ∧ (chain ≠ [] →
       relation_edges Samples.relations_a 2 = Some chain
       ∧ relation_edges Samples.relations_a 3 = Some (prod_swap <$> chain)).
Proof.
  apply (chain_relation_is_image_of_pairs "cpu" [Samples.tree_a]
           Samples.relations_a Samples.mapping_a Samples.inverse_a).
  reflexivity.
Defined.

(** ** No edge between different trees *)

Lemma batch_edges_from_within ast_id asts :
  Forall (within_batch ast_id (length asts)) (batch_edges_from ast_id asts).
Proof.
  revert ast_id. induction asts as [|t asts IH]; intros ast_id; simpl;
    [constructor|].
  apply Forall_app. split.
  - unfold tree_edges. apply Forall_fmap, Forall_forall. intros edge _.
    unfold within_batch. simpl. lia.
  - eapply Forall_impl; [apply IH|]. unfold within_batch. intros e. simpl. lia.
Qed.

Lemma batch_chain_from_within ast_id asts :
  Forall (within_batch ast_id (length asts)) (batch_chain_from ast_id asts).
Proof.
  revert ast_id. induction asts as [|t asts IH]; intros ast_id; simpl;
    [constructor|].
  apply Forall_app. split.
  - unfold tree_chain. apply Forall_fmap, Forall_forall. intros pair _.
    unfold within_batch. simpl. lia.
  - eapply Forall_impl; [apply IH|]. unfold within_batch. intros e. simpl. lia.
Qed.

Lemma maps_edge_within m n es l :
  Forall2 (maps_edge m) es l → Forall (within_batch 0 n) es →
  Forall (λ ids, ∃ i, i < n ∧ ids_of_tree m i ids.1 ∧ ids_of_tree m i ids.2) l.
Proof.
  induction 1 as [|e ids es l [H1 H2] _ IH]; intros Hw; [constructor|].
  apply Forall_cons in Hw as [[Hsame Hlt] Hw]. constructor; [|auto].
  destruct e as [[i n1] [j n2]]. simpl in *. subst j.
  exists i. split; [lia|]. split; [by exists n1 | by exists n2].
Qed.

(** X5: whenever the function returns, no relation connects nodes of
    different trees: both combined ids of every edge of every relation
    produced belong to one and the same tree of the batch. *)
Theorem relations_stay_within_trees dev asts adj m inv :
  get_batched_adjacency_lists dev asts = Ok (adj, m, inv) →
  ∀ a u v, a ∈ adj → (u, v) ∈ adj_list a →
    ∃ i, i < length asts ∧ ids_of_tree m i u ∧ ids_of_tree m i v.
Proof.
  intros H. unfold get_batched_adjacency_lists in H. inv_bind H.
  rename a into st. subst adj m inv.
  destruct (batch_loop_maps _ _ _ _ Ha) as (nt & nc & Hnt & Hnc & Hmt & Hmc).
  destruct (batch_loop_mirrored _ _ _ _ Ha) as [Hrt Hrc]; [by split|].
  simpl in Hnt, Hnc.
  pose proof (maps_edge_within _ _ _ _ Hmt (batch_edges_from_within 0 asts))
    as Ht.
  pose proof (maps_edge_within _ _ _ _ Hmc (batch_chain_from_within 0 asts))
    as Hc.
  rewrite Forall_forall in Ht, Hc.
  assert (∀ l : list (nat * nat),
            (∀ ids, ids ∈ l → ∃ i, i < length asts
               ∧ ids_of_tree (tree_node2batch_graph_node st) i ids.1
               ∧ ids_of_tree (tree_node2batch_graph_node st) i ids.2) →
            ∀ u v, (u, v) ∈ prod_swap <$> l → ∃ i, i < length asts
               ∧ ids_of_tree (tree_node2batch_graph_node st) i u
               ∧ ids_of_tree (tree_node2batch_graph_node st) i v) as Hswap.
  { intros l Hl u v ([u' v'] & [= -> ->] & Hin)%list_elem_of_fmap.
    destruct (Hl _ Hin) as (i & ? & ? & ?). by exists i. }
  intros a u v Hin Huv.
  assert (adj_list a = ast_adj_list st ∨ adj_list a = reversed_ast_adj_list st
          ∨ adj_list a = terminal_nodes_adj_list st
          ∨ adj_list a = reversed_terminal_nodes_adj_list st) as Hcases.
  { destruct (terminal_nodes_adj_list st);
      repeat (apply elem_of_cons in Hin as [->|Hin]; [simpl; tauto|]);
      by apply elem_of_nil in Hin. }
  destruct Hcases as [Heq|[Heq|[Heq|Heq]]]; rewrite Heq in Huv.
  - rewrite Hnt in Huv. apply (Ht _ Huv).
  - rewrite Hrt, Hnt in Huv. by apply (Hswap nt).
  - rewrite Hnc in Huv. apply (Hc _ Huv).
  - rewrite Hrc, Hnc in Huv. by apply (Hswap nc).
Qed.

Lemma relations_stay_within_trees_witness :
  ∃ i, i < length [Samples.tree_a]
       ∧ ids_of_tree Samples.mapping_a i 2 ∧ ids_of_tree Samples.mapping_a i 1.
Proof.
  apply (relations_stay_within_trees "cpu" [Samples.tree_a]
           Samples.relations_a Samples.mapping_a Samples.inverse_a eq_refl
           {| node_num := 3; adj_list := [(2, 1)]; adj_device := None |}).
  - do 2 right. left.
  - left.
Defined.

(** ** When the initial encoding returns *)

Lemma init_index_Ok vocab grammar asts c k idx :
  init_index vocab grammar asts (c, k) = Ok idx ↔ resolves vocab grammar asts k idx.
Proof.
  destruct k as [tree_id tree_node_id]. unfold init_index, resolves, node_of.
  simpl. split.
  - intros H. inv_bind H. rename a into t, a0 into node.
    apply list_getitem_Ok in Ha. apply dict_getitem_Ok in Ha0.
    exists node. rewrite Ha. simpl. split; [done|].
    destruct (is_variable_node node); [done|].
    inv_bind H. apply dict_getitem_Ok in Ha1. eauto.
  - intros (node & Hnode & Hidx).
    destruct (asts !! tree_id) as [t|] eqn:Ht; simpl in Hnode; [|done].
    apply list_getitem_Ok in Ht. rewrite Ht. simpl.
    apply dict_getitem_Ok in Hnode. rewrite Hnode. simpl.
    destruct (is_variable_node node); [done|].
    destruct Hidx as (g & Hg & ->). apply dict_getitem_Ok in Hg.
    by rewrite Hg.
Qed.

Lemma init_loop_items vocab grammar asts i items indices r :
  init_loop vocab grammar asts i items indices = Ok r →
  ∀ item, item ∈ items → ∃ idx, init_index vocab grammar asts item = Ok idx.
Proof.
  revert i indices. induction items as [|it items IH]; intros i indices H item Hin;
    simpl in H.
  - by apply elem_of_nil in Hin.
  - inv_bind H. apply elem_of_cons in Hin as [->|Hin]; [eauto|].
    by eapply IH.
Qed.

Lemma init_loop_total vocab grammar asts i items indices :
  (∀ item, item ∈ items → ∃ idx, init_index vocab grammar asts item = Ok idx) →
  ∃ r, init_loop vocab grammar asts i items indices = Ok r.
Proof.
  revert i indices. induction items as [|it items IH]; intros i indices Hall;
    simpl.
  - by eexists.
  - destruct (Hall it) as [idx Hidx]; [left|]. rewrite Hidx. simpl.
    apply IH. intros item Hin. apply Hall. by right.
Qed.

(** X6: after [get_batched_adjacency_lists] has returned, the loop that
    fills the index tensor returns only if every endpoint of a
    parent/child edge names a node of its tree's [id_to_node] whose
    variable identifier (terminal) or syntax category (non-terminal)
    resolves, and it does return when they all resolve to indices that a
    64-bit tensor entry can hold; the tensor then has one entry per
    combined id, the feature index of the node with that combined id. *)
Theorem init_indices_returns vocab grammar dev asts adj m inv :
  get_batched_adjacency_lists dev asts = Ok (adj, m, inv) →
  ((∃ indices, init_indices vocab grammar asts inv = Ok indices) →
   ∀ k, k ∈ batch_endpoints asts → ∃ idx, resolves vocab grammar asts k idx)
  ∧ ((∀ k, k ∈ batch_endpoints asts →
        ∃ idx, resolves vocab grammar asts k idx ∧ fits_int64 idx) →
     ∃ indices, init_indices vocab grammar asts inv = Ok indices
                ∧ Forall fits_int64 indices)
  ∧ ∀ indices, init_indices vocab grammar asts inv = Ok indices →
      length indices = length m
      ∧ ∀ k c, OrderedDict.get k m = Some c →
          ∃ idx, indices !! c = Some idx ∧ resolves vocab grammar asts k idx.
Proof.
  intros H. pose proof (get_batched_adjacency_lists_counted _ _ _ _ _ H) as Hc.
  apply get_batched_adjacency_lists_Ok in H as (_ & _ & Hm & Hinv & _).
  change (map ?f m) with (f <$> m) in Hinv.
  assert (∀ k, k ∈ batch_endpoints asts ↔ ∃ c, (c, k) ∈ inv) as Hkeys.
  { intros k. rewrite <- (assign_ids_keys (batch_endpoints asts) k), <- Hm.
    rewrite Hinv, list_elem_of_fmap. split.
    - intros ([k' c] & -> & Hin). exists c. apply list_elem_of_fmap.
      by exists (k', c).
    - intros (c & ([k' c'] & [= -> ->] & Hin)%list_elem_of_fmap).
      by exists (k', c'). }
  split_and!.
  - intros [indices Hind] k (c & Hin)%Hkeys.
    destruct (init_loop_items _ _ _ _ _ _ _ Hind (c, k) Hin) as [idx Hidx].
    exists idx. by eapply init_index_Ok.
  - intros Hall.
    destruct (init_loop_total vocab grammar asts 0 inv
                (replicate (length inv) 0%Z)) as [indices Hind].
    { intros [c k] Hin. destruct (Hall k) as (idx & Hidx & _);
        [apply Hkeys; eauto|].
      exists idx. by apply init_index_Ok. }
    exists indices. split; [done|].
    pose proof (init_indices_spec _ _ _ _ _ Hind) as [Hlen Hat].
    apply Forall_lookup. intros c idx Hc_idx.
    destruct (lookup_lt_is_Some_2 inv c) as [[c' k] Hitem];
      [rewrite <- Hlen; by eapply lookup_lt_Some|].
    destruct (Hat c _ Hitem) as (idx' & Hidx' & Hc').
    assert (idx' = idx) as -> by congruence.
    destruct (Hall k) as (idx2 & Hres & Hfit).
    { apply Hkeys. exists c'. by eapply list_elem_of_lookup_2. }
    apply (proj2 (init_index_Ok vocab grammar asts c' k idx2)) in Hres.
    by assert (idx2 = idx) as <- by congruence.
  - intros indices (Hlen & Hat)%init_indices_spec. split.
    { by rewrite Hlen, Hinv, length_fmap. }
    intros k c Hk. apply (counted_get_lookup _ _ _ Hc) in Hk.
    destruct (Hat c (c, k)) as (idx & Hidx & Hc_idx).
    { by rewrite Hinv, list_lookup_fmap, Hk. }
    exists idx. split; [done|]. by eapply init_index_Ok.
Qed.

Lemma init_indices_returns_witness :
  ∃ indices, init_indices Samples.sample_vocab Samples.sample_grammar
               [Samples.tree_a] Samples.inverse_a = Ok indices
             ∧ Forall fits_int64 indices.
Proof.
  destruct (init_indices_returns Samples.sample_vocab Samples.sample_grammar
              "cpu" [Samples.tree_a] Samples.relations_a Samples.mapping_a
              Samples.inverse_a eq_refl) as (_ & Hreturns & _).
  apply Hreturns. intros k Hk. vm_compute in Hk.
  repeat (apply elem_of_cons in Hk as [->|Hk]);
    [| | | |by apply elem_of_nil in Hk].
  - exists 2%Z. split; [|unfold fits_int64; lia].
    exists Samples.root. split; [reflexivity|]. simpl.
    exists 0%Z. split; reflexivity.
  - exists 1%Z. split; [|unfold fits_int64; lia].
    exists Samples.leaf2. split; reflexivity.
  - exists 2%Z. split; [|unfold fits_int64; lia].
    exists Samples.root. split; [reflexivity|]. simpl.
    exists 0%Z. split; reflexivity.
  - exists 0%Z. split; [|unfold fits_int64; lia].
    exists Samples.leaf1. split; reflexivity.
Defined.

(** ** The embedding lookup stays inside the table *)

Lemma list_comp_total {A B : Type} (f : A → result B) xs :
  (∀ x, x ∈ xs → ∃ y, f x = Ok y) → ∃ ys, list_comp f xs = Ok ys.
Proof.
  induction xs as [|x xs IH]; intros Hall; simpl; [by eexists|].
  destruct (Hall x) as [y Hy]; [left|]. rewrite Hy. simpl.
  destruct IH as [ys Hys]; [intros x' Hx'; apply Hall; by right|].
  rewrite Hys. simpl. by eexists.
Qed.

Lemma resolves_in_table vocab grammar asts k idx n :
  vocab_indices_in_range vocab → grammar_indices_below grammar n →
  resolves vocab grammar asts k idx →
  (0 ≤ idx < Z.of_nat (source_len vocab + n))%Z.
Proof.
  intros Hv Hg (node & _ & Hidx). destruct (is_variable_node node).
  - apply Hv in Hidx. lia.
  - destruct Hidx as (g & Hgi & ->). apply Hg in Hgi. lia.
Qed.

Lemma init_indices_in_table vocab grammar asts inv indices n :
  vocab_indices_in_range vocab → grammar_indices_below grammar n →
  init_indices vocab grammar asts inv = Ok indices →
  ∀ idx, idx ∈ indices → (0 ≤ idx < Z.of_nat (source_len vocab + n))%Z.
Proof.
  intros Hv Hg [Hlen Hat]%init_indices_spec idx (c & Hc)%list_elem_of_lookup.
  destruct (lookup_lt_is_Some_2 inv c) as [[c' k] Hitem];
    [rewrite <- Hlen; by eapply lookup_lt_Some|].
  destruct (Hat c _ Hitem) as (idx' & Hidx & Hc').
  assert (idx' = idx) as -> by congruence.
  eapply resolves_in_table; [done | done |]. by eapply init_index_Ok.
Qed.

Lemma embedding_total {scalar : Type} (weight : list (list scalar)) indices :
  (∀ idx, idx ∈ indices → (0 ≤ idx < Z.of_nat (length weight))%Z) →
  ∃ init,
    embedding weight indices = Ok init
    ∧ length init = length indices
    ∧ ∀ c idx, indices !! c = Some idx → init !! c = weight !! Z.to_nat idx.
Proof.
  intros Hrange.
  destruct (list_comp_total
              (λ i, if decide (0 ≤ i)%Z
                    then list_getitem weight (Z.to_nat i)
                    else Raise IndexError) indices) as [init Hinit].
  { intros idx Hin. apply Hrange in Hin. rewrite decide_True by lia.
    destruct (lookup_lt_is_Some_2 weight (Z.to_nat idx)) as [row Hrow]; [lia|].
    exists row. by apply list_getitem_Ok. }
  exists init. unfold embedding. split; [done|].
  apply list_comp_Forall2 in Hinit.
  split; [by rewrite <- (Forall2_length _ _ _ Hinit)|].
  intros c idx Hc.
  destruct (Forall2_lookup_l _ _ _ _ _ Hinit Hc) as (row & Hrow & Hf).
  rewrite decide_True in Hf by (apply Hrange; by eapply list_elem_of_lookup_2).
  apply list_getitem_Ok in Hf. by rewrite Hrow, Hf.
Qed.

(** X7: with a feature table of [len(vocab.source)] plus the number of
    syntax types rows, as [__init__] builds it, a vocabulary that numbers
    its entries below its size and a grammar that numbers its syntax types
    from 0, the embedding lookup never leaves the table: whenever the index
    tensor is built, [get_batched_tree_init_encoding] returns, with one
    vector per entry, the table row of that entry's index. *)
Theorem init_encoding_in_table {scalar : Type} (self : GraphASTEncoder scalar)
    asts m inv indices n_types :
  vocab_indices_in_range (vocab self) →
  grammar_indices_below (grammar self) n_types →
  length (src_node_embedding_weight self) = source_len (vocab self) + n_types →
  init_indices (vocab self) (grammar self) asts inv = Ok indices →
  ∃ init,
    get_batched_tree_init_encoding self asts m inv = Ok init
    ∧ length init = length inv
    ∧ ∀ c idx, indices !! c = Some idx →
        (0 ≤ idx < Z.of_nat (length (src_node_embedding_weight self)))%Z
        ∧ init !! c = src_node_embedding_weight self !! Z.to_nat idx.
Proof.
  intros Hv Hg Hlen Hind.
  pose proof (init_indices_in_table _ _ _ _ _ _ Hv Hg Hind) as Hrange.
  rewrite <- Hlen in Hrange.
  destruct (embedding_total (src_node_embedding_weight self) indices Hrange)
    as (init & Hinit & Hlen_init & Hrows).
  exists init. unfold get_batched_tree_init_encoding. rewrite Hind. simpl.
  split; [done|]. split.
  - rewrite Hlen_init. by apply init_indices_spec in Hind as [-> _].
  - intros c idx Hc. split; [|auto].
    apply Hrange. by eapply list_elem_of_lookup_2.
Qed.

Lemma init_encoding_in_table_witness :
  ∃ init,
    get_batched_tree_init_encoding Samples.sample_encoder [Samples.tree_a]
      Samples.mapping_a Samples.inverse_a = Ok init
    ∧ length init = length Samples.inverse_a
    ∧ ∀ c idx, [2; 1; 0]%Z !! c = Some idx →
        (0 ≤ idx < Z.of_nat (length (src_node_embedding_weight
                                       Samples.sample_encoder)))%Z
        ∧ init !! c
          = src_node_embedding_weight Samples.sample_encoder !! Z.to_nat idx.
Proof.
  apply (init_encoding_in_table Samples.sample_encoder [Samples.tree_a]
           Samples.mapping_a Samples.inverse_a [2; 1; 0]%Z 1).
  - intros w i. unfold Samples.sample_encoder, Samples.sample_vocab. simpl.
    repeat case_decide; intros [= <-]; lia.
  - intros s g. unfold Samples.sample_encoder, Samples.sample_grammar. simpl.
    intros [_ <-]%lookup_singleton_Some. lia.
  - reflexivity.
  - reflexivity.
Defined.

(** ** The sort on local node ids *)

Lemma insert_by_key_perm x l : insert_by_key x l ≡ₚ x :: l.
Proof.
  induction l as [|y l IH]; simpl; [done|].
  destruct (y.1 <=? x.1)%Z; [|done].
  by rewrite IH, Permutation_swap.
Qed.

Lemma sorted_by_key_perm l : sorted_by_key l ≡ₚ l.
Proof.
  unfold sorted_by_key.
  assert (∀ acc, foldl (λ acc x, insert_by_key x acc) acc l ≡ₚ acc ++ l) as H.
  { induction l as [|x l IH]; intros acc; simpl; [by rewrite app_nil_r|].
    rewrite IH, insert_by_key_perm. simpl. apply Permutation_middle. }
  apply (H []).
Qed.

Lemma insert_by_key_sorted x l :
  StronglySorted key_le l → StronglySorted key_le (insert_by_key x l).
Proof.
  induction l as [|y l IH]; simpl; intros Hs.
  - repeat constructor.
  - apply StronglySorted_cons in Hs as [Hy Hs].
    destruct (y.1 <=? x.1)%Z eqn:Hle.
    + apply StronglySorted_cons. split; [|auto].
      rewrite insert_by_key_perm. constructor; [|done].
      unfold key_le. lia.
    + apply StronglySorted_cons. split.
      * constructor; [unfold key_le; lia|].
        eapply Forall_impl; [exact Hy|]. unfold key_le. intros z. lia.
      * by apply StronglySorted_cons.
Qed.

Lemma sorted_by_key_sorted l : StronglySorted key_le (sorted_by_key l).
Proof.
  unfold sorted_by_key.
  assert (∀ acc, StronglySorted key_le acc →
            StronglySorted key_le (foldl (λ acc x, insert_by_key x acc) acc l))
    as H.
  { induction l as [|x l IH]; intros acc Hacc; simpl; [done|].
    by apply IH, insert_by_key_sorted. }
  apply H. constructor.
Qed.

Lemma sorted_keys_strict (l : list (Z * nat)) :
  StronglySorted key_le l → NoDup l.*1 → StronglySorted Z.lt l.*1.
Proof.
  induction l as [|x l IH]; simpl; intros Hs Hnd; [constructor|].
  apply StronglySorted_cons in Hs as [Hx Hs].
  apply NoDup_cons in Hnd as [Hnin Hnd].
  apply StronglySorted_cons. split; [|auto].
  apply Forall_fmap, Forall_forall. intros y Hy. simpl.
  rewrite Forall_forall in Hx. specialize (Hx y Hy). unfold key_le in Hx.
  assert (x.1 ≠ y.1); [|lia].
  intros Heq. apply Hnin. rewrite Heq. apply list_elem_of_fmap. by exists y.
Qed.

Lemma example_nodes_elem m e_id n c :
  (n, c) ∈ example_nodes_with_batch_id m e_id ↔ ((e_id, n), c) ∈ m.
Proof.
  unfold example_nodes_with_batch_id. rewrite list_elem_of_omap. split.
  - intros ([[i n'] c'] & Hin & Hf). simpl in Hf.
    case_decide; [|done]. by simplify_eq.
  - intros Hin. exists ((e_id, n), c). split; [done|]. simpl.
    by rewrite decide_True.
Qed.

Lemma example_nodes_NoDup m e_id :
  NoDup m.*1 → NoDup (example_nodes_with_batch_id m e_id).*1.
Proof.
  unfold example_nodes_with_batch_id.
  induction m as [|[[i n] c] m IH]; simpl; intros Hnd; [constructor|].
  apply NoDup_cons in Hnd as [Hnin Hnd]. case_decide as Hi; [|auto].
  simpl. apply NoDup_cons. split; [|auto].
  intros ([n' c'] & Heq & Hin)%list_elem_of_fmap. simpl in Heq. subst n' i.
  apply example_nodes_elem in Hin. apply Hnin.
  apply list_elem_of_fmap. by exists ((e_id, n), c').
Qed.

(** X8: the combined ids that the unpacking loop writes into row [e_id]
    are those of the nodes of tree [e_id] that the dictionary maps, each
    once, in strictly ascending order of local node id. *)
Theorem example_nodes_sorted_by_local_id m e_id :
  NoDup m.*1 →
  ∃ locals : list Z,
    length locals = length (example_nodes_batch_id m e_id)
    ∧ StronglySorted Z.lt locals
    ∧ (∀ n, n ∈ locals ↔ is_Some (OrderedDict.get (e_id, n) m))
    ∧ (∀ j n, locals !! j = Some n →
         ∃ c, example_nodes_batch_id m e_id !! j = Some c
              ∧ OrderedDict.get (e_id, n) m = Some c).
Proof.
  intros Hnd. unfold example_nodes_batch_id.
  set (l := sorted_by_key (example_nodes_with_batch_id m e_id)).
  assert (l ≡ₚ example_nodes_with_batch_id m e_id) as Hperm
    by apply sorted_by_key_perm.
  exists l.*1. split_and!.
  - by rewrite !length_fmap.
  - apply sorted_keys_strict; [apply sorted_by_key_sorted|].
    rewrite Hperm. by apply example_nodes_NoDup.
  - intros n. rewrite list_elem_of_fmap. split.
    + intros ([n' c] & -> & Hin). rewrite Hperm in Hin.
      apply example_nodes_elem in Hin. exists c. simpl. by apply elem_get.
    + intros [c Hc]. exists (n, c). split; [done|]. rewrite Hperm.
      by apply example_nodes_elem, get_Some_elem.
  - intros j n Hj. rewrite list_lookup_fmap in Hj.
    destruct (l !! j) as [[n' c]|] eqn:Hl; simpl in Hj; [|done].
    injection Hj as ->. exists c. rewrite list_lookup_fmap, Hl.
    split; [done|]. apply elem_get; [done|].
    apply example_nodes_elem. rewrite <- Hperm.
    by eapply list_elem_of_lookup_2.
Qed.

Lemma example_nodes_sorted_by_local_id_witness :
  ∃ locals : list Z,
    length locals = length (example_nodes_batch_id Samples.mapping_a 0)
    ∧ StronglySorted Z.lt locals
    ∧ (∀ n, n ∈ locals ↔ is_Some (OrderedDict.get (0, n) Samples.mapping_a))
    ∧ (∀ j n, locals !! j = Some n →
         ∃ c, example_nodes_batch_id Samples.mapping_a 0 !! j = Some c
              ∧ OrderedDict.get (0, n) Samples.mapping_a = Some c).
Proof.
  apply (example_nodes_sorted_by_local_id Samples.mapping_a 0).
  apply (bool_decide_unpack _). vm_compute. exact I.
Defined.

(** ** The rows written by the unpacking loop *)

Lemma unpack_body_eq m e_id index masks :
  unpack_body m e_id (index, masks)
  = (index_row ← list_getitem index e_id;
     index_row' ← slice_assign index_row (example_nodes_batch_id m e_id);
     mask_row ← list_getitem masks e_id;
     Ok (<[e_id := index_row']> index,
         <[e_id := slice_fill mask_row
                     (length (example_nodes_batch_id m e_id)) 1%Z]> masks)).
Proof. reflexivity. Qed.

(** The loop rewrites the rows of the trees it visits, each once from its
    initial content, and leaves the others alone. *)
Lemma unpack_loop_rows m e0 trees st st' :
  unpack_loop m e0 trees st = Ok st' →
  (∀ e, e < e0 ∨ e0 + length trees ≤ e →
     st'.1 !! e = st.1 !! e ∧ st'.2 !! e = st.2 !! e)
  ∧ (∀ e, e0 ≤ e < e0 + length trees →
       ∃ row row' mrow,
         st.1 !! e = Some row
         ∧ slice_assign row (example_nodes_batch_id m e) = Ok row'
         ∧ st'.1 !! e = Some row'
         ∧ st.2 !! e = Some mrow
         ∧ st'.2 !! e
           = Some (slice_fill mrow (length (example_nodes_batch_id m e)) 1%Z)).
Proof.
  revert e0 st. induction trees as [|t trees IH]; intros e0 st H; simpl in H.
  - injection H as <-. split; [done|]. simpl. intros e He. lia.
  - inv_bind H. rename a into st1. destruct st as [index masks].
    rewrite unpack_body_eq in Ha. inv_bind Ha.
    rename a into row, a0 into row', a1 into mrow. subst st1.
    apply list_getitem_Ok in Ha0, Ha2.
    destruct (IH _ _ H) as [Hout Hin]. simpl in *. split.
    + intros e He. destruct (Hout e) as [-> ->]; [lia|].
      rewrite !list_lookup_insert_ne by lia. done.
    + intros e He. destruct (decide (e = e0)) as [->|Hne].
      * destruct (Hout e0) as [-> ->]; [lia|].
        exists row, row', mrow.
        rewrite !list_lookup_insert_eq by (by eapply lookup_lt_Some). done.
      * destruct (Hin e) as (r & r' & mr & H1 & H2 & H3 & H4 & H5); [lia|].
        rewrite list_lookup_insert_ne in H1 by lia.
        rewrite list_lookup_insert_ne in H4 by lia.
        by exists r, r', mr.
Qed.

Lemma slice_assign_Ok {A : Type} (row vals row' : list A) :
  slice_assign row vals = Ok row' →
  (length vals ≤ length row ∧ row' = vals ++ drop (length vals) row)
  ∨ (length vals = 1 ∧ row = [] ∧ row' = []).
Proof.
  unfold slice_assign. cbv zeta. case_decide as Hlen.
  - intros [= <-]. left. split; [lia|]. by rewrite <- Hlen.
  - destruct vals as [|v [|??]]; [done | | done].
    intros [= <-]. right. destruct row; [done|]. simpl in Hlen. lia.
Qed.

Lemma unpack_batch_encoding_rows {scalar : Type} (zero : scalar)
    flattened trees m out :
  unpack_batch_encoding zero flattened trees m = Ok out →
  ∃ n index gathered,
    py_max (size <$> trees) = Ok n
    ∧ gather flattened index = Ok gathered
    ∧ shaped (length trees) n gathered
    ∧ batch_tree_node_encoding out
      = masked_fill gathered (inverted_byte_mask (batch_tree_node_masks out)) zero
    ∧ ∀ e, e < length trees →
        ∃ row,
          slice_assign (replicate n 0) (example_nodes_batch_id m e) = Ok row
          ∧ index !! e = Some row
          ∧ batch_tree_node_masks out !! e
            = Some (slice_fill (replicate n 0%Z)
                      (length (example_nodes_batch_id m e)) 1%Z).
Proof.
  unfold unpack_batch_encoding. intros H. inv_bind H.
  rename a into n, a0 into st, a1 into gathered.
  exists n, st.1, gathered. subst out. simpl.
  destruct (unpack_loop_shaped _ _ _ _ _ (length trees) n Ha0) as [Hi Hm];
    [apply shaped_replicate | apply shaped_replicate |].
  split_and!; [done | done | by eapply gather_shaped | done |].
  intros e He. destruct (unpack_loop_rows _ _ _ _ _ Ha0) as [_ Hin].
  destruct (Hin e) as (r & r' & mr & H1 & H2 & H3 & H4 & H5); [simpl; lia|].
  simpl in H1, H4. rewrite lookup_replicate_2 in H1 by done.
  rewrite lookup_replicate_2 in H4 by done.
  injection H1 as <-. injection H4 as <-. by exists r'.
Qed.

Lemma example_nodes_length m e_id :
  length (example_nodes_batch_id m e_id)
  = length (filter (λ kv : tree_node * nat, kv.1.1 = e_id) m).
Proof.
  unfold example_nodes_batch_id.
  rewrite length_fmap, (Permutation_length (sorted_by_key_perm _)).
  unfold example_nodes_with_batch_id.
  induction m as [|kv m IH]; [done|].
  rewrite filter_cons. simpl. case_decide; simpl; [by f_equal | done].
Qed.

(** X9: whenever [unpack_batch_encoding] returns, the mask row of tree
    [e] is a run of ones, one per key of the dictionary whose tree index is
    [e], followed by zeros up to the largest tree size [n]; the count of
    such keys is at most [n], save for one key written into rows of
    length 0. *)
Theorem mask_row_counts_mapped_nodes {scalar : Type} (zero : scalar)
    flattened trees m out :
  unpack_batch_encoding zero flattened trees m = Ok out →
  ∃ n, py_max (size <$> trees) = Ok n
    ∧ ∀ e, e < length trees →
        let k := length (filter (λ kv : tree_node * nat, kv.1.1 = e) m) in
        (k ≤ n ∨ (k = 1 ∧ n = 0))
        ∧ batch_tree_node_masks out !! e
          = Some (replicate (Nat.min k n) 1%Z ++ replicate (n - k) 0%Z).
Proof.
  intros (n & index & gathered & Hmax & _ & _ & _ & Hrows)%unpack_batch_encoding_rows.
  exists n. split; [done|]. intros e He. cbv zeta.
  destruct (Hrows e He) as (row & Hassign & _ & Hmask).
  rewrite <- example_nodes_length. split.
  - apply slice_assign_Ok in Hassign as [[Hle _]|(H1 & Hrow & _)].
    + left. by rewrite length_replicate in Hle.
    + right. split; [done|]. by destruct n.
  - rewrite Hmask. unfold slice_fill.
    by rewrite length_replicate, drop_replicate.
Qed.

Lemma mask_row_counts_mapped_nodes_witness :
  ∃ n, py_max (size <$> [Samples.tree_a; Samples.tree_single]) = Ok n
    ∧ ∀ e, e < length [Samples.tree_a; Samples.tree_single] →
        let k := length (filter (λ kv : tree_node * nat, kv.1.1 = e)
                           Samples.mapping_a) in
        (k ≤ n ∨ (k = 1 ∧ n = 0))
        ∧ [[1; 1; 1]; [0; 0; 0]]%Z !! e
          = Some (replicate (Nat.min k n) 1%Z ++ replicate (n - k) 0%Z).
Proof.
  apply (mask_row_counts_mapped_nodes 0%Z [[30; 31]; [20; 21]; [10; 11]]%Z
           [Samples.tree_a; Samples.tree_single] Samples.mapping_a
           {| batch_tree_node_encoding :=
                [[[30; 31]; [10; 11]; [20; 21]]; [[0; 0]; [0; 0]; [0; 0]]]%Z;
              batch_tree_node_masks := [[1; 1; 1]; [0; 0; 0]]%Z |}).
  reflexivity.
Defined.

(** X10: whenever [unpack_batch_encoding] returns, position [j] of row
    [e] of the output holds the flattened encoding of the [j]-th combined
    id of tree [e] (in the order of X8), unchanged, and the mask holds 1
    there. *)
Theorem unpacked_row_holds_tree_vectors {scalar : Type} (zero : scalar)
    flattened trees m out :
  unpack_batch_encoding zero flattened trees m = Ok out →
  ∀ e j c mask_row,
    batch_tree_node_masks out !! e = Some mask_row →
    j < length mask_row →
    example_nodes_batch_id m e !! j = Some c →
    mask_row !! j = Some 1%Z
    ∧ ∃ enc_row vec,
        batch_tree_node_encoding out !! e = Some enc_row
        ∧ enc_row !! j = Some vec
        ∧ flattened !! c = Some vec.
Proof.
  intros H e j c mask_row Hmask Hj Hc.
  pose proof H as (n & gathered' & _ & _ & Hshape & _)%unpack_batch_encoding_Ok.
  apply unpack_batch_encoding_rows in H
    as (n' & index & gathered & Hmax & Hgather & Hg & Henc & Hrows).
  assert (e < length trees) as He
    by (destruct Hshape as [<- _]; by eapply lookup_lt_Some).
  destruct (Hrows e He) as (row & Hassign & Hindex & Hmask').
  rewrite Hmask in Hmask'. injection Hmask' as ->.
  rewrite slice_fill_length, length_replicate in Hj.
  pose proof (lookup_lt_Some _ _ _ Hc) as Hjk.
  apply slice_assign_Ok in Hassign as [[Hle ->]|(_ & Hnil & _)];
    [|destruct n'; [lia | done]].
  assert (slice_fill (replicate n' 0%Z)
            (length (example_nodes_batch_id m e)) 1%Z !! j = Some 1%Z) as Hone.
  { unfold slice_fill. rewrite lookup_app_l by (rewrite length_replicate, length_replicate; lia).
    apply lookup_replicate_2. rewrite length_replicate. lia. }
  split; [done|].
  unfold gather in Hgather. apply list_comp_Forall2 in Hgather.
  destruct (Forall2_lookup_l _ _ _ _ _ Hgather Hindex) as (grow & Hgrow & Hrow).
  apply list_comp_Forall2 in Hrow.
  destruct (Forall2_lookup_l _ _ _ j c Hrow) as (vec & Hvec & Hget).
  { by apply lookup_app_l_Some. }
  apply list_getitem_Ok in Hget.
  destruct (masked_fill_lookup gathered (batch_tree_node_masks out) zero
              e j grow vec _ 1%Z Hgrow Hvec Hmask Hone) as (orow & Ho & Hv).
  exists orow, vec. by rewrite Henc.
Qed.

Lemma unpacked_row_holds_tree_vectors_witness :
  [1; 1; 1]%Z !! 1 = Some 1%Z
  ∧ ∃ enc_row vec,
      [[[30; 31]; [10; 11]; [20; 21]]; [[0; 0]; [0; 0]; [0; 0]]]%Z !! 0
        = Some enc_row
      ∧ enc_row !! 1 = Some vec
      ∧ [[30; 31]; [20; 21]; [10; 11]]%Z !! 2 = Some vec.
Proof.
  apply (unpacked_row_holds_tree_vectors 0%Z [[30; 31]; [20; 21]; [10; 11]]%Z
           [Samples.tree_a; Samples.tree_single] Samples.mapping_a
           {| batch_tree_node_encoding :=
                [[[30; 31]; [10; 11]; [20; 21]]; [[0; 0]; [0; 0]; [0; 0]]]%Z;
              batch_tree_node_masks := [[1; 1; 1]; [0; 0; 0]]%Z |}
           eq_refl 0 1 2 [1; 1; 1]%Z).
  - reflexivity.
  - simpl. lia.
  - reflexivity.
Defined.

(** ** When [unpack_batch_encoding] returns *)

Lemma example_nodes_values m e_id c :
  c ∈ example_nodes_batch_id m e_id → c ∈ m.*2.
Proof.
  unfold example_nodes_batch_id.
  intros ([n c'] & -> & Hin)%list_elem_of_fmap.
  rewrite sorted_by_key_perm in Hin. apply example_nodes_elem in Hin.
  apply list_elem_of_fmap. by exists ((e_id, n), c').
Qed.

Lemma unpack_loop_total m e0 trees st b n bound :
  shaped b n st.1 → shaped b n st.2 →
  Forall (Forall (λ i, i < bound)) st.1 →
  e0 + length trees ≤ b →
  (∀ e, e0 ≤ e < e0 + length trees →
     length (example_nodes_batch_id m e) ≤ n) →
  Forall (λ c, c < bound) m.*2 →
  ∃ st', unpack_loop m e0 trees st = Ok st'
         ∧ Forall (Forall (λ i, i < bound)) st'.1.
Proof.
  revert e0 st. induction trees as [|t trees IH];
    intros e0 [index masks] Hi Hm Hb He Hfit Hvals;
    simpl in Hi, Hm, Hb, He, Hfit.
  - by eexists.
  - change (unpack_loop m e0 (t :: trees) (index, masks))
      with (unpack_body m e0 (index, masks)
              ≫= unpack_loop m (S e0) trees).
    destruct (lookup_lt_is_Some_2 index e0) as [row Hrow];
      [destruct Hi as [-> _]; lia|].
    destruct (lookup_lt_is_Some_2 masks e0) as [mrow Hmrow];
      [destruct Hm as [-> _]; lia|].
    pose proof (shaped_lookup _ _ _ _ _ Hi Hrow) as Hlen.
    assert (slice_assign row (example_nodes_batch_id m e0)
            = Ok (example_nodes_batch_id m e0
                    ++ drop (length (example_nodes_batch_id m e0)) row))
      as Hassign.
    { unfold slice_assign. cbv zeta.
      specialize (Hfit e0 ltac:(lia)).
      rewrite Nat.min_l by lia. by rewrite decide_True. }
    rewrite unpack_body_eq.
    apply list_getitem_Ok in Hrow as Hrow', Hmrow as Hmrow'.
    rewrite Hrow'. simpl. rewrite Hassign. simpl. rewrite Hmrow'. simpl.
    apply IH; simpl.
    + apply shaped_insert; [done|].
      rewrite length_app, length_drop. specialize (Hfit e0 ltac:(lia)). lia.
    + apply shaped_insert; [done|]. rewrite slice_fill_length.
      by eapply shaped_lookup.
    + apply Forall_insert; [done|]. apply Forall_app. split.
      * apply Forall_forall. intros c Hc%example_nodes_values.
        rewrite Forall_forall in Hvals. auto.
      * apply Forall_drop. by eapply (Forall_lookup_1 _ _ _ _ Hb).
    + lia.
    + intros e Hlt. apply Hfit. lia.
    + done.
Qed.

Lemma gather_total {scalar : Type} (flattened : list (list scalar)) index :
  Forall (Forall (λ i, i < length flattened)) index →
  ∃ gathered, gather flattened index = Ok gathered.
Proof.
  intros Hb. unfold gather. apply list_comp_total. intros row Hrow.
  apply list_comp_total. intros i Hi.
  rewrite Forall_forall in Hb. specialize (Hb row Hrow).
  rewrite Forall_forall in Hb. specialize (Hb i Hi).
  destruct (lookup_lt_is_Some_2 flattened i Hb) as [vec Hvec].
  exists vec. by apply list_getitem_Ok.
Qed.

Lemma unpack_batch_encoding_returns {scalar : Type} (zero : scalar)
    (flattened : list (list scalar)) trees m n :
  py_max (size <$> trees) = Ok n →
  (∀ e, e < length trees → length (example_nodes_batch_id m e) ≤ n) →
  Forall (λ c, c < length flattened) m.*2 →
  0 < length flattened →
  ∃ out, unpack_batch_encoding zero flattened trees m = Ok out.
Proof.
  intros Hmax Hfit Hvals Hpos. unfold unpack_batch_encoding.
  rewrite Hmax. simpl.
  destruct (unpack_loop_total m 0 trees
              (replicate (length trees) (replicate n 0),
               replicate (length trees) (replicate n 0%Z))
              (length trees) n (length flattened)) as (st & Hst & Hb).
  - apply shaped_replicate.
  - apply shaped_replicate.
  - simpl. apply Forall_replicate, Forall_replicate. done.
  - simpl. lia.
  - intros e He. apply Hfit. simpl in He. lia.
  - done.
  - rewrite Hst. simpl. destruct (gather_total flattened st.1 Hb) as [g Hg].
    rewrite Hg. simpl. by eexists.
Qed.

Lemma example_nodes_fit trees m n :
  py_max (size <$> trees) = Ok n →
  (∀ e t, trees !! e = Some t →
     length (filter (λ kv : tree_node * nat, kv.1.1 = e) m) ≤ size t) →
  ∀ e, e < length trees → length (example_nodes_batch_id m e) ≤ n.
Proof.
  intros [_ Hle]%py_max_spec Hfit e He.
  destruct (lookup_lt_is_Some_2 trees e He) as [t Ht].
  rewrite example_nodes_length. etrans; [by eapply Hfit|].
  apply Hle, list_elem_of_fmap. exists t. split; [done|].
  by eapply list_elem_of_lookup_2.
Qed.

(** X11: [unpack_batch_encoding] returns when the batch is not empty,
    every tree has at least as many nodes ([size]) as the dictionary has
    keys for it, every combined id of the dictionary is a row of the
    flattened encodings, and there is at least one such row (padding
    gathers row 0). *)
Theorem unpack_batch_encoding_total {scalar : Type} (zero : scalar)
    (flattened : list (list scalar)) trees m :
  trees ≠ [] →
  (∀ e t, trees !! e = Some t →
     length (filter (λ kv : tree_node * nat, kv.1.1 = e) m) ≤ size t) →
  Forall (λ c, c < length flattened) m.*2 →
  0 < length flattened →
  ∃ out, unpack_batch_encoding zero flattened trees m = Ok out.
Proof.
  intros Hne Hfit Hvals Hpos.
  destruct (py_max (size <$> trees)) as [n|e] eqn:Hmax;
    [|by destruct trees].
  apply (unpack_batch_encoding_returns zero flattened trees m n);
    [done | | done | done].
  by eapply example_nodes_fit.
Qed.

Lemma unpack_batch_encoding_total_witness :
  ∃ out, unpack_batch_encoding 0%Z [[30; 31]; [20; 21]; [10; 11]]%Z
           [Samples.tree_a; Samples.tree_single] Samples.mapping_a = Ok out.
Proof.
  apply (unpack_batch_encoding_total 0%Z [[30; 31]; [20; 21]; [10; 11]]%Z
           [Samples.tree_a; Samples.tree_single] Samples.mapping_a).
  - discriminate.
  - intros [|[|e]] t Ht; simpl in Ht; [| |done]; injection Ht as <-;
      vm_compute; lia.
  - repeat constructor.
  - simpl. lia.
Defined.

(** ** The call of the propagation engine in [forward] *)

Lemma get_batched_tree_init_encoding_length {scalar : Type}
    (self : GraphASTEncoder scalar) asts m inv init :
  get_batched_tree_init_encoding self asts m inv = Ok init →
  length init = length inv.
Proof.
  unfold get_batched_tree_init_encoding, embedding. intros H. inv_bind H.
  apply init_indices_spec in Ha as [<- _].
  apply list_comp_Forall2, Forall2_length in H. lia.
Qed.

(** X12: whenever [forward] calls the propagation engine it does so
    exactly once, after both construction steps returned, with the relations
    of [get_batched_adjacency_lists] (two or four) and with exactly one
    initial vector per combined id, as many as the [node_num] of every
    relation and as the batch has distinct edge endpoints. *)
Theorem forward_engine_call {scalar : Type} (zero : scalar)
    (self : GraphASTEncoder scalar) asts call :
  call ∈ (forward zero self asts).1 →
  (forward zero self asts).1 = [call]
  ∧ (∃ m inv,
       get_batched_adjacency_lists (device self) asts = Ok (call.2, m, inv)
       ∧ get_batched_tree_init_encoding self asts m inv = Ok call.1)
  ∧ length call.1 = total_node_count asts
  ∧ Forall (λ a, node_num a = length call.1) call.2
  ∧ (length call.2 = 2 ∨ length call.2 = 4).
Proof.
  unfold forward, traced_bind, lift_result, call_gnn. simpl.
  destruct (get_batched_adjacency_lists (device self) asts)
    as [[[adj m] inv]|e] eqn:Hadj; simpl;
    [|by intros Hin%elem_of_nil].
  destruct (get_batched_tree_init_encoding self asts m inv)
    as [init|e] eqn:Hinit; simpl; [|by intros Hin%elem_of_nil].
  assert (length init = total_node_count asts
          ∧ Forall (λ a, node_num a = length init) adj
          ∧ (length adj = 2 ∨ length adj = 4)) as Hfacts.
  { apply get_batched_tree_init_encoding_length in Hinit.
    pose proof (get_batched_adjacency_lists_counted _ _ _ _ _ Hadj) as Hc.
    apply get_batched_adjacency_lists_Ok in Hadj
      as (st & _ & Hm & Hinv & Hl & Hn).
    assert (length init = length m) as Hlen
      by (rewrite Hinit, Hinv; apply length_map).
    split_and!.
    - rewrite Hlen, Hm. apply assign_ids_length.
    - by rewrite Hlen.
    - rewrite <- (length_fmap adj_list), Hl.
      destruct (terminal_nodes_adj_list st); simpl; auto. }
  intros Hin.
  assert (call = (init, adj)) as ->.
  { destruct (gnn_compute_node_representations self init adj); simpl in Hin;
      by apply list_elem_of_singleton in Hin. }
  simpl. split_and!; try apply Hfacts.
  - by destruct (gnn_compute_node_representations self init adj); simpl.
  - by exists m, inv.
Qed.

Lemma forward_engine_call_witness :
  (forward 0%Z Samples.sample_encoder [Samples.tree_a]).1
  = [([[30; 31]; [20; 21]; [10; 11]]%Z, Samples.relations_a)]
  ∧ length [[30; 31]; [20; 21]; [10; 11]]%Z
    = total_node_count [Samples.tree_a].
Proof.
  destruct (forward_engine_call 0%Z Samples.sample_encoder [Samples.tree_a]
              ([[30; 31]; [20; 21]; [10; 11]]%Z, Samples.relations_a))
    as (Htrace & _ & Hlen & _).
  - vm_compute. left.
  - split; [exact Htrace | exact Hlen].
Defined.

(** ** A batch without any edge *)

Lemma batch_loop_edgeless ast_id asts st :
  Forall (λ t, adjacency_list t = [] ∧ adjacent_terminal_nodes t = []) asts →
  batch_loop ast_id asts st = Ok st.
Proof.
  revert ast_id. induction asts as [|t asts IH]; intros ast_id Hall; simpl;
    [done|].
  apply Forall_cons in Hall as [[He Hc] Hall].
  unfold tree_body. rewrite He, Hc. simpl. by apply IH.
Qed.

Lemma unpack_loop_empty_map e0 trees index masks :
  e0 + length trees ≤ length index → e0 + length trees ≤ length masks →
  unpack_loop [] e0 trees (index, masks) = Ok (index, masks).
Proof.
  revert e0. induction trees as [|t trees IH]; intros e0 Hi Hm; simpl in *;
    [done|].
  destruct (lookup_lt_is_Some_2 index e0) as [row Hrow]; [lia|].
  destruct (lookup_lt_is_Some_2 masks e0) as [mrow Hmrow]; [lia|].
  unfold list_getitem, slice_assign, slice_fill. rewrite Hrow, Hmrow. simpl.
  rewrite !list_insert_id by done. apply IH; lia.
Qed.

(** X13: a batch of one or more trees none of which has a parent/child
    edge or an adjacent-terminal pair, and at least one of which has a
    positive [size], cannot be encoded: no node receives a combined id, the
    engine is called on an empty sequence of vectors, and when it returns
    an empty sequence, unpacking gathers row 0 of an empty tensor and
    [forward] raises [IndexError]. *)
Theorem forward_edgeless_batch {scalar : Type} (zero : scalar)
    (self : GraphASTEncoder scalar) asts :
  let relations :=
    [ {| node_num := 0; adj_list := []; adj_device := Some (device self) |};
      {| node_num := 0; adj_list := []; adj_device := Some (device self) |} ] in
  Forall (λ t, adjacency_list t = [] ∧ adjacent_terminal_nodes t = []) asts →
  Exists (λ t, 0 < size t) asts →
  gnn_compute_node_representations self [] relations = Ok [] →
  forward zero self asts = ([([], relations)], Raise IndexError).
Proof.
  intros relations Hall Hsize Hgnn.
  unfold forward, traced_bind, lift_result, call_gnn,
    get_batched_adjacency_lists, get_batched_tree_init_encoding.
  rewrite (batch_loop_edgeless 0 asts initial_state Hall). simpl.
  fold relations. rewrite Hgnn. simpl. f_equal.
  unfold unpack_batch_encoding.
  destruct (py_max (size <$> asts)) as [n|e] eqn:Hmax; simpl.
  - rewrite unpack_loop_empty_map by (rewrite length_replicate; lia). simpl.
    assert (0 < n) as Hn.
    { apply py_max_spec in Hmax as [_ Hle].
      apply Exists_exists in Hsize as (t & Ht & Hpos).
      specialize (Hle (size t)). rewrite list_elem_of_fmap in Hle.
      assert (size t ≤ n) by (apply Hle; by exists t). lia. }
    destruct asts as [|t asts]; [by apply Exists_nil in Hsize|].
    destruct n as [|n]; [lia|]. done.
  - destruct asts; [by apply Exists_nil in Hsize | done].
Qed.

Lemma forward_edgeless_batch_witness :
  forward 0%Z Samples.sample_encoder [Samples.tree_single; Samples.tree_single]
  = ([([], [ {| node_num := 0; adj_list := [];
                adj_device := Some (device Samples.sample_encoder) |};
             {| node_num := 0; adj_list := [];
                adj_device := Some (device Samples.sample_encoder) |} ])],
     Raise IndexError).
Proof.
  apply (forward_edgeless_batch 0%Z Samples.sample_encoder
           [Samples.tree_single; Samples.tree_single]).
  - repeat constructor.
  - left. simpl. lia.
  - reflexivity.
Defined.

(** ** When [forward] returns *)

Lemma inverse_items_keys asts m inv :
  m = assign_ids [] (batch_endpoints asts) →
  inv = (λ kv : tree_node * nat, (kv.2, kv.1)) <$> m →
  ∀ c k, (c, k) ∈ inv → k ∈ batch_endpoints asts.
Proof.
  intros Hm -> c k ([k' c'] & [= -> ->] & Hin)%list_elem_of_fmap.
  apply (assign_ids_keys (batch_endpoints asts)). rewrite <- Hm.
  apply list_elem_of_fmap. by exists (k', c').
Qed.

Lemma batch_endpoints_from_elem ast_id asts k :
  k ∈ batch_endpoints_from ast_id asts
  ↔ ∃ j t, asts !! j = Some t
           ∧ k ∈ edge_endpoints (ast_id + j) (adjacency_list t).
Proof.
  revert ast_id. induction asts as [|t asts IH]; intros ast_id; simpl.
  - split; [by intros ?%elem_of_nil | by intros (j & t & ? & _)].
  - rewrite elem_of_app, IH. split.
    + intros [Hin|(j & t' & Hj & Hin)].
      * exists 0, t. by rewrite Nat.add_0_r.
      * exists (S j), t'. split; [done|].
        by replace (ast_id + S j) with (S ast_id + j) by lia.
    + intros ([|j] & t' & Hj & Hin); simpl in Hj.
      * injection Hj as <-. left. by rewrite Nat.add_0_r in Hin.
      * right. exists j, t'. split; [done|].
        by replace (S ast_id + j) with (ast_id + S j) by lia.
Qed.

Lemma filter_keys_NoDup (m : list (tree_node * nat)) (e : nat) :
  NoDup m.*1 →
  NoDup (filter (λ kv : tree_node * nat, kv.1.1 = e) m).*1.
Proof.
  induction m as [|kv m IH]; simpl; intros Hnd; [constructor|].
  apply NoDup_cons in Hnd as [Hnin Hnd]. rewrite filter_cons.
  case_decide; [|auto]. simpl. apply NoDup_cons. split; [|auto].
  intros (kv' & Heq & Hin%list_elem_of_filter)%list_elem_of_fmap.
  apply Hnin. rewrite Heq. apply list_elem_of_fmap. exists kv'. tauto.
Qed.

(** The keys of one tree are the distinct endpoints of its edges. *)
Lemma tree_keys_length asts e t :
  asts !! e = Some t →
  length (filter (λ kv : tree_node * nat, kv.1.1 = e)
            (assign_ids [] (batch_endpoints asts)))
  = length (remove_dups (edge_endpoints e (adjacency_list t))).
Proof.
  intros He. set (m := assign_ids [] (batch_endpoints asts)).
  rewrite <- (length_fmap fst (filter _ m)).
  apply Permutation_length, NoDup_Permutation.
  - apply filter_keys_NoDup. apply assign_ids_counted, counted_nil.
  - apply NoDup_remove_dups.
  - intros k. rewrite elem_of_remove_dups, list_elem_of_fmap. split.
    + intros (kv & -> & [Hk Hin]%list_elem_of_filter).
      assert (kv.1 ∈ batch_endpoints asts) as Hend.
      { apply (assign_ids_keys (batch_endpoints asts)).
        apply list_elem_of_fmap. by exists kv. }
      apply batch_endpoints_from_elem in Hend as (j & t' & Hj & Hin').
      pose proof (edge_endpoints_fst _ _ _ Hin') as Hfst. simpl in Hfst.
      assert (j = e) as -> by lia. by simplify_eq.
    + intros Hin.
      assert (k ∈ m.*1) as ([k' c] & -> & Hm)%list_elem_of_fmap.
      { apply assign_ids_keys, batch_endpoints_from_elem. by exists e, t. }
      exists (k', c). split; [done|]. apply list_elem_of_filter.
      split; [|done]. simpl. by apply edge_endpoints_fst in Hin.
Qed.

(** X14: [forward] returns its padded tensor when the batch has at least
    one parent/child edge; every adjacent-terminal pair names endpoints of
    edges of its tree; every edge endpoint resolves to a feature index; the
    feature table has a row for every index; every tree has at least as
    many nodes ([size]) as its edges have distinct endpoints; and the
    engine returns as many vectors as it was given. *)
Theorem forward_total {scalar : Type} (zero : scalar)
    (self : GraphASTEncoder scalar) asts n_types :
  batch_endpoints asts ≠ [] →
  batch_chain_covered asts →
  (∀ k, k ∈ batch_endpoints asts →
     ∃ idx, resolves (vocab self) (grammar self) asts k idx) →
  vocab_indices_in_range (vocab self) →
  grammar_indices_below (grammar self) n_types →
  length (src_node_embedding_weight self) = source_len (vocab self) + n_types →
  (∀ e t, asts !! e = Some t →
     length (remove_dups (edge_endpoints e (adjacency_list t))) ≤ size t) →
  (∀ init adj, ∃ enc,
     gnn_compute_node_representations self init adj = Ok enc
     ∧ length enc = length init) →
  ∃ out, (forward zero self asts).2 = Ok out.
Proof.
  intros Hedge Hcov Hres Hv Hg Hlen Hfit Hgnn.
  destruct (get_batched_adjacency_lists_total (device self) asts Hcov)
    as [[[adj m] inv] Hadj].
  pose proof (get_batched_adjacency_lists_counted _ _ _ _ _ Hadj) as Hc.
  pose proof Hadj as (_ & _ & Hm & Hinv & _)%get_batched_adjacency_lists_Ok.
  change (map ?f m) with (f <$> m) in Hinv.
  destruct (init_loop_total (vocab self) (grammar self) asts 0 inv
              (replicate (length inv) 0%Z)) as [indices Hind].
  { intros [c k] Hin. destruct (Hres k) as [idx Hidx].
    - by eapply inverse_items_keys.
    - exists idx. by apply init_index_Ok. }
  pose proof (init_indices_in_table _ _ _ _ _ _ Hv Hg Hind) as Hrange.
  rewrite <- Hlen in Hrange.
  destruct (embedding_total (src_node_embedding_weight self) indices Hrange)
    as (init & Hinit & Hlen_init & _).
  destruct (Hgnn init adj) as (enc & Henc & Hlen_enc).
  assert (length enc = length m) as Hlen_m.
  { rewrite Hlen_enc, Hlen_init.
    apply init_indices_spec in Hind as [-> _]. by rewrite Hinv, length_fmap. }
  destruct (py_max (size <$> asts)) as [n|e] eqn:Hmax;
    [|by destruct asts].
  destruct (unpack_batch_encoding_returns zero enc asts m n) as [out Hout].
  - done.
  - eapply example_nodes_fit; [done|].
    intros e t He. rewrite Hm, (tree_keys_length asts e t He). by apply Hfit.
  - rewrite Hlen_m. destruct Hc as [_ ->]. apply Forall_forall.
    intros c Hin%elem_of_seq. lia.
  - rewrite Hlen_m, Hm, assign_ids_length.
    destruct (batch_endpoints asts) as [|k ks] eqn:Hks; [done|].
    assert (k ∈ remove_dups (k :: ks))
      by (apply elem_of_remove_dups; left).
    destruct (remove_dups (k :: ks)); [by apply elem_of_nil in H | simpl; lia].
  - exists out. unfold forward, traced_bind, lift_result, call_gnn,
      get_batched_tree_init_encoding. simpl. rewrite Hadj. simpl.
    unfold init_indices, OrderedDict.items. rewrite Hind. simpl.
    rewrite Hinit. simpl. rewrite Henc. simpl. done.
Qed.

Lemma forward_total_witness :
  ∃ out, (forward 0%Z Samples.sample_encoder
            [Samples.tree_a; Samples.tree_single]).2 = Ok out.
Proof.
  apply (forward_total 0%Z Samples.sample_encoder
           [Samples.tree_a; Samples.tree_single] 1).
  - discriminate.
  - intros [|[|i]] t Ht; simpl in Ht; [| |done]; injection Ht as <-;
      intros pair Hp; simpl in Hp.
    + apply list_elem_of_singleton in Hp as ->. simpl.
      split; [do 3 right; left | right; left].
    + by apply elem_of_nil in Hp.
  - intros k Hk. vm_compute in Hk.
    repeat (apply elem_of_cons in Hk as [->|Hk]);
      [| | | |by apply elem_of_nil in Hk].
    + exists 2%Z, Samples.root. split; [reflexivity|]. simpl.
      exists 0%Z. split; reflexivity.
    + exists 1%Z, Samples.leaf2. split; reflexivity.
    + exists 2%Z, Samples.root. split; [reflexivity|]. simpl.
      exists 0%Z. split; reflexivity.
    + exists 0%Z, Samples.leaf1. split; reflexivity.
  - intros w i. simpl. unfold Samples.sample_vocab. simpl.
    repeat case_decide; intros [= <-]; lia.
  - intros s g. simpl. unfold Samples.sample_grammar. simpl.
    intros [_ <-]%lookup_singleton_Some. lia.
  - reflexivity.
  - intros [|[|e]] t Ht; simpl in Ht; [| |done]; injection Ht as <-;
      vm_compute; lia.
  - intros init adj. exists init. split; reflexivity.
Defined.

(** ** Growing the batch *)

Lemma assign_ids_prefix d ks : d `prefix_of` assign_ids d ks.
Proof.
  revert d. induction ks as [|k ks IH]; intros d; [done|].
  etrans; [|apply IH]. destruct (OrderedDict.get k d) as [v|] eqn:Hg.
  - by rewrite (assign_id_old _ _ _ Hg).
  - rewrite (assign_id_new _ _ Hg). by apply prefix_app_r.
Qed.

Lemma batch_endpoints_from_app ast_id asts more :
  batch_endpoints_from ast_id (asts ++ more)
  = batch_endpoints_from ast_id asts
    ++ batch_endpoints_from (ast_id + length asts) more.
Proof.
  revert ast_id. induction asts as [|t asts IH]; intros ast_id; simpl.
  - by rewrite Nat.add_0_r.
  - rewrite IH, <- app_assoc. do 3 f_equal. lia.
Qed.

Lemma batch_loop_app ast_id asts more st :
  batch_loop ast_id (asts ++ more) st
  = batch_loop ast_id asts st ≫= batch_loop (ast_id + length asts) more.
Proof.
  revert ast_id st. induction asts as [|t asts IH]; intros ast_id st; simpl.
  - by rewrite Nat.add_0_r.
  - destruct (tree_body ast_id st t) as [st1|e]; simpl; [|done].
    rewrite IH. do 2 f_equal. lia.
Qed.

(** X15: appending trees to a batch changes nothing for the trees already
    there: when both batches are accepted, the mapping of the shorter batch
    is an initial segment of the mapping of the longer one, in the same
    order and with the same ids, and so are its forward-tree edges. *)
Theorem batch_extension_keeps_ids dev asts more adj m inv adj' m' inv' :
  get_batched_adjacency_lists dev asts = Ok (adj, m, inv) →
  get_batched_adjacency_lists dev (asts ++ more) = Ok (adj', m', inv') →
  m `prefix_of` m'
  ∧ (∀ k c, OrderedDict.get k m = Some c → OrderedDict.get k m' = Some c)
  ∧ ∃ fwd fwd', relation_edges adj 0 = Some fwd
      ∧ relation_edges adj' 0 = Some fwd' ∧ fwd `prefix_of` fwd'.
Proof.
  intros H H'.
  unfold get_batched_adjacency_lists in H, H'. inv_bind H. inv_bind H'.
  rename a into st, a0 into st'. subst adj m inv adj' m' inv'.
  rewrite batch_loop_app, Ha in Ha0. simpl in Ha0.
  pose proof (batch_loop_dict _ _ _ _ Ha0) as Hd.
  destruct (batch_loop_maps _ _ _ _ Ha0) as (nt & _ & Hnt & _).
  split_and!.
  - rewrite Hd. apply assign_ids_prefix.
  - rewrite Hd. apply assign_ids_extends.
  - exists (ast_adj_list st), (ast_adj_list st'). unfold relation_edges.
    split_and!.
    + by destruct (terminal_nodes_adj_list st).
    + by destruct (terminal_nodes_adj_list st').
    + rewrite Hnt. by apply prefix_app_r.
Qed.

Lemma batch_extension_keeps_ids_witness :
  Samples.mapping_a
    `prefix_of` [((0, 0%Z), 0); ((0, 2%Z), 1); ((0, 1%Z), 2);
                 ((1, 0%Z), 3); ((1, 2%Z), 4); ((1, 1%Z), 5)].
Proof.
  eapply (batch_extension_keeps_ids "cpu" [Samples.tree_a]
            [Samples.tree_plain] _ _ _ _ _ _ eq_refl eq_refl).
Defined.

(** ** The offset of a tree *)

Lemma remove_dups_app_disjoint (l1 l2 : list tree_node) :
  (∀ x, x ∈ l1 → x ∉ l2) →
  length (remove_dups (l1 ++ l2))
  = length (remove_dups l1) + length (remove_dups l2).
Proof.
  intros Hdisj. rewrite <- length_app.
  apply Permutation_length, NoDup_Permutation.
  - apply NoDup_remove_dups.
  - apply NoDup_app. split_and!; [apply NoDup_remove_dups | | apply NoDup_remove_dups].
    intros x. rewrite !elem_of_remove_dups. apply Hdisj.
  - intros x. rewrite elem_of_app, !elem_of_remove_dups. apply elem_of_app.
Qed.

Lemma batch_endpoints_split asts i t :
  asts !! i = Some t →
  batch_endpoints asts
  = batch_endpoints (take i asts)
    ++ edge_endpoints i (adjacency_list t)
    ++ batch_endpoints_from (S i) (drop (S i) asts).
Proof.
  intros Hi. unfold batch_endpoints.
  rewrite <- (take_drop_middle asts i t Hi) at 1.
  rewrite batch_endpoints_from_app. simpl.
  rewrite length_take_le by (apply Nat.lt_le_incl; by eapply lookup_lt_Some).
  done.
Qed.

Lemma batch_endpoints_take_lt asts i k :
  k ∈ batch_endpoints (take i asts) → k.1 < i.
Proof.
  intros (j & t & Hj & Hin)%batch_endpoints_from_elem.
  apply edge_endpoints_fst in Hin. simpl in Hin.
  apply lookup_lt_Some in Hj. rewrite length_take in Hj. lia.
Qed.

(** X16: whenever the function returns, the combined ids of tree [i] are
    its own first-encounter ranks shifted by the number of nodes that the
    trees before it received: an endpoint of tree [i] first met, within the
    tree's edge list, after the endpoints [pre] has the id
    [total_node_count (take i asts) + |distinct pre|]. *)
Theorem tree_ids_are_offset_ranks dev asts adj m inv i t pre k post :
  get_batched_adjacency_lists dev asts = Ok (adj, m, inv) →
  asts !! i = Some t →
  edge_endpoints i (adjacency_list t) = pre ++ k :: post →
  k ∉ pre →
  OrderedDict.get k m
  = Some (total_node_count (take i asts) + length (remove_dups pre)).
Proof.
  intros (_ & _ & -> & _)%get_batched_adjacency_lists_Ok Hi Hsplit Hpre.
  assert (∀ x, x ∈ pre ∨ x = k → x.1 = i) as Hfst.
  { intros x Hx. apply (edge_endpoints_fst i (adjacency_list t)).
    rewrite Hsplit, elem_of_app, elem_of_cons. tauto. }
  unfold total_node_count.
  rewrite <- remove_dups_app_disjoint.
  - apply (assign_ids_first_encounter _ _ _
             (post ++ batch_endpoints_from (S i) (drop (S i) asts))).
    + rewrite (batch_endpoints_split asts i t Hi), Hsplit.
      by rewrite <- !app_assoc.
    + rewrite elem_of_app. intros [Hin|Hin]; [|done].
      apply batch_endpoints_take_lt in Hin. rewrite Hfst in Hin by auto. lia.
  - intros x Hx Hx'. apply batch_endpoints_take_lt in Hx.
    rewrite Hfst in Hx by auto. lia.
Qed.

Lemma tree_ids_are_offset_ranks_witness :
  OrderedDict.get (2, 2%Z)
    [((0, 0%Z), 0); ((0, 2%Z), 1); ((0, 1%Z), 2);
     ((2, 0%Z), 3); ((2, 2%Z), 4); ((2, 1%Z), 5)]
  = Some (total_node_count (take 2 [Samples.tree_a; Samples.tree_single;
                                    Samples.tree_plain])
          + length (remove_dups [(2, 0%Z)])).
Proof.
  eapply (tree_ids_are_offset_ranks "cpu"
            [Samples.tree_a; Samples.tree_single; Samples.tree_plain]
            _ _ _ 2 Samples.tree_plain [(2, 0%Z)] (2, 2%Z)
            [(2, 0%Z); (2, 1%Z)] eq_refl eq_refl eq_refl).
  intros Hin. apply list_elem_of_singleton in Hin. discriminate.
Defined.

(** ** A tree with more mapped nodes than the widest row *)

Lemma unpack_loop_raises m e0 trees index masks e :
  e0 + length trees ≤ length index → e0 + length trees ≤ length masks →
  unpack_loop m e0 trees (index, masks) = Raise e → e = ValueError.
Proof.
  revert e0 index masks. induction trees as [|t trees IH];
    intros e0 index masks Hi Hm H; [done|].
  change (unpack_loop m e0 (t :: trees) (index, masks))
    with (unpack_body m e0 (index, masks) ≫= unpack_loop m (S e0) trees) in H.
  simpl in Hi, Hm. rewrite unpack_body_eq in H.
  destruct (lookup_lt_is_Some_2 index e0) as [row Hrow]; [lia|].
  destruct (lookup_lt_is_Some_2 masks e0) as [mrow Hmrow]; [lia|].
  apply list_getitem_Ok in Hrow, Hmrow. rewrite Hrow in H. simpl in H.
  destruct (slice_assign row (example_nodes_batch_id m e0)) as [row'|e1] eqn:Ha;
    simpl in H.
  - rewrite Hmrow in H. simpl in H.
    eapply IH; [| |exact H]; rewrite length_insert; lia.
  - injection H as <-. unfold slice_assign in Ha. cbv zeta in Ha.
    case_decide; [done|].
    destruct (example_nodes_batch_id m e0) as [|v [|??]]; by simplify_eq.
Qed.

(** X17: when the dictionary holds more keys for some tree of the batch
    than the largest [size] of the batch, [unpack_batch_encoding] raises
    [ValueError] (the ids do not fit the row), except that a single key
    written into rows of length 0 is silently dropped. *)
Theorem unpack_overfull_tree {scalar : Type} (zero : scalar)
    (flattened : list (list scalar)) trees m n e :
  py_max (size <$> trees) = Ok n →
  e < length trees →
  n < length (filter (λ kv : tree_node * nat, kv.1.1 = e) m) →
  0 < n ∨ 2 ≤ length (filter (λ kv : tree_node * nat, kv.1.1 = e) m) →
  unpack_batch_encoding zero flattened trees m = Raise ValueError.
Proof.
  intros Hmax He Hover Hcorner. unfold unpack_batch_encoding.
  rewrite Hmax. simpl.
  destruct (unpack_loop m 0 trees _) as [st|e'] eqn:Hloop; simpl.
  - exfalso. destruct (unpack_loop_rows _ _ _ _ _ Hloop) as [_ Hin].
    destruct (Hin e) as (r & r' & mr & H1 & H2 & _); [simpl; lia|].
    simpl in H1. rewrite lookup_replicate_2 in H1 by done.
    injection H1 as <-. rewrite <- example_nodes_length in Hover, Hcorner.
    apply slice_assign_Ok in H2 as [[Hle _]|(Hone & Hnil & _)].
    + rewrite length_replicate in Hle. lia.
    + destruct n; [lia | done].
  - f_equal. eapply unpack_loop_raises; [| |exact Hloop];
      rewrite length_replicate; simpl; lia.
Qed.

Lemma unpack_overfull_tree_witness :
  unpack_batch_encoding 0%Z [[30; 31]; [20; 21]; [10; 11]]%Z
    [Samples.tree_single] Samples.mapping_a = Raise ValueError.
Proof.
  apply (unpack_overfull_tree 0%Z [[30; 31]; [20; 21]; [10; 11]]%Z
           [Samples.tree_single] Samples.mapping_a 1 0).
  - reflexivity.
  - simpl. lia.
  - vm_compute. lia.
  - left. lia.
Defined.

(** ** What the construction depends on *)

Lemma same_contents_refl t : same_contents t t.
Proof. by split_and!. Qed.

Lemma edge_body_same_ids ast_id st e1 e2 :
  node_id e1.1 = node_id e2.1 → node_id e1.2 = node_id e2.2 →
  edge_body ast_id st e1 = edge_body ast_id st e2.
Proof. unfold edge_body. by intros -> ->. Qed.

Lemma edge_loop_same_ids ast_id edges1 edges2 st :
  (λ edge : SyntaxNode * SyntaxNode, (node_id edge.1, node_id edge.2))
    <$> edges1
  = (λ edge : SyntaxNode * SyntaxNode, (node_id edge.1, node_id edge.2))
      <$> edges2 →
  fold_left (edge_body ast_id) edges1 st
  = fold_left (edge_body ast_id) edges2 st.
Proof.
  revert edges2 st. induction edges1 as [|e1 edges1 IH];
    intros [|e2 edges2] st Hids; simpl in Hids; try done.
  injection Hids as H1 H2 Hrest. simpl.
  rewrite (edge_body_same_ids ast_id st e1 e2 H1 H2). by apply IH.
Qed.

Lemma batch_loop_same_contents ast_id asts1 asts2 st :
  Forall2 same_contents asts1 asts2 →
  batch_loop ast_id asts1 st = batch_loop ast_id asts2 st.
Proof.
  intros Hsame. revert ast_id st.
  induction Hsame as [|t1 t2 asts1 asts2 (Hedges & Hchain & _) _ IH];
    intros ast_id st; simpl; [done|].
  unfold tree_body. rewrite Hchain.
  rewrite (edge_loop_same_ids ast_id (adjacency_list t1) (adjacency_list t2))
    by exact Hedges.
  destruct (for_each _ _ _); simpl; [apply IH | done].
Qed.

Lemma edge_endpoints_ids ast_id t n :
  (ast_id, n) ∈ edge_endpoints ast_id (adjacency_list t) →
  ∃ p, p ∈ edge_ids t ∧ (n = p.1 ∨ n = p.2).
Proof.
  unfold edge_ids. induction (adjacency_list t) as [|edge edges IH]; simpl.
  - by intros ?%elem_of_nil.
  - intros Hin. apply elem_of_cons in Hin as [[= ->]|Hin].
    { eexists. split; [left|]. by left. }
    apply elem_of_cons in Hin as [[= ->]|Hin].
    { eexists. split; [left|]. by right. }
    destruct (IH Hin) as (p & Hp & Hn). exists p. split; [by right | done].
Qed.

(** The feature index of an edge endpoint is the same in two batches with
    the same contents. *)
Lemma init_index_same_contents vocab grammar asts1 asts2 c k :
  Forall2 same_contents asts1 asts2 →
  k ∈ batch_endpoints asts1 →
  init_index vocab grammar asts1 (c, k) = init_index vocab grammar asts2 (c, k).
Proof.
  intros Hsame (j & t1 & Hj & Hin)%batch_endpoints_from_elem.
  destruct k as [i n]. pose proof (edge_endpoints_fst _ _ _ Hin) as Hfst.
  simpl in Hfst, Hin. subst i.
  destruct (Forall2_lookup_l _ _ _ _ _ Hsame Hj) as (t2 & Hj2 & _ & _ & Hnodes).
  apply edge_endpoints_ids in Hin as (p & Hp & Hn).
  assert (same_node_at t1 t2 n) as Hview
    by (destruct (Hnodes p Hp); by destruct Hn as [->| ->]).
  unfold init_index, list_getitem, dict_getitem. rewrite Hj, Hj2. simpl.
  unfold same_node_at in Hview.
  destruct (id_to_node t1 !! n) as [n1|], (id_to_node t2 !! n) as [n2|];
    simpl in *; try done.
  injection Hview as Hvar Hname. unfold node_view in *.
  rewrite <- Hvar in Hname |- *.
  destruct (is_variable_node n1); by rewrite Hname.
Qed.

Lemma init_loop_ext vocab grammar asts1 asts2 i items indices :
  (∀ item, item ∈ items →
     init_index vocab grammar asts1 item = init_index vocab grammar asts2 item) →
  init_loop vocab grammar asts1 i items indices
  = init_loop vocab grammar asts2 i items indices.
Proof.
  revert i indices. induction items as [|item items IH]; intros i indices Hext;
    simpl; [done|].
  rewrite <- (Hext item) by left.
  destruct (init_index vocab grammar asts1 item); simpl; [|done].
  apply IH. intros it Hit. apply Hext. by right.
Qed.

(** C8: the mapping, the relations and the initial feature indices are a
    function of the contents of the batch as the construction reads them
    (the node ids of the edges in order, the adjacent-terminal pairs in
    order, the looked-up nodes of the edge endpoints) and of the
    vocabulary, grammar, device and feature table.  Two runs on batches
    with the same contents, and so two runs on the same batch, return the
    same mapping and relations (or raise the same exception), the same
    index sequence, and hand the same arguments to the propagation
    engine, whatever else differs between the tree objects and whatever
    the engines do. *)
Theorem construction_determined_by_contents {scalar : Type} (zero : scalar)
    (self1 self2 : GraphASTEncoder scalar)
    (asts1 asts2 : list AbstractSyntaxTree) :
  Forall2 same_contents asts1 asts2 →
  vocab self1 = vocab self2 →
  grammar self1 = grammar self2 →
  device self1 = device self2 →
  src_node_embedding_weight self1 = src_node_embedding_weight self2 →
  get_batched_adjacency_lists (device self1) asts1
    = get_batched_adjacency_lists (device self2) asts2
  ∧ (∀ adj m inv,
       get_batched_adjacency_lists (device self1) asts1 = Ok (adj, m, inv) →
       init_indices (vocab self1) (grammar self1) asts1 inv
       = init_indices (vocab self2) (grammar self2) asts2 inv)
  ∧ (forward zero self1 asts1).1 = (forward zero self2 asts2).1.
Proof.
  intros Hsame Hv Hg Hd Hw.
  assert (get_batched_adjacency_lists (device self1) asts1
          = get_batched_adjacency_lists (device self2) asts2) as Hadj.
  { unfold get_batched_adjacency_lists.
    by rewrite Hd, (batch_loop_same_contents 0 asts1 asts2 initial_state Hsame). }
  assert (∀ adj m inv,
            get_batched_adjacency_lists (device self1) asts1 = Ok (adj, m, inv) →
            init_indices (vocab self1) (grammar self1) asts1 inv
            = init_indices (vocab self2) (grammar self2) asts2 inv) as Hind.
  { intros adj m inv H. rewrite <- Hv, <- Hg. unfold init_indices.
    apply init_loop_ext. intros [c k] Hin.
    apply init_index_same_contents; [done|].
    apply get_batched_adjacency_lists_Ok in H as (_ & _ & Hm & Hinv & _).
    by eapply inverse_items_keys. }
  split_and!; [done | done |].
  unfold forward, traced_bind, call_gnn, lift_result. simpl.
  rewrite <- Hadj.
  destruct (get_batched_adjacency_lists (device self1) asts1)
    as [[[adj m] inv]|] eqn:H; simpl; [|done].
  unfold get_batched_tree_init_encoding.
  rewrite <- (Hind adj m inv eq_refl), <- Hw.
  destruct (init_indices (vocab self1) (grammar self1) asts1 inv ≫= _);
    simpl; [|done].
  by do 2 destruct (gnn_compute_node_representations _ _ _).
Qed.

Lemma construction_determined_by_contents_witness :
  get_batched_adjacency_lists "cpu" [Samples.tree_a; Samples.tree_single]
  = get_batched_adjacency_lists "cpu"
      [Samples.tree_a_variant; Samples.tree_single]
  ∧ (forward 0%Z Samples.sample_encoder
       [Samples.tree_a; Samples.tree_single]).1
    = (forward 0%Z Samples.failing_engine_encoder
         [Samples.tree_a_variant; Samples.tree_single]).1.
Proof.
  destruct (construction_determined_by_contents 0%Z Samples.sample_encoder
              Samples.failing_engine_encoder
              [Samples.tree_a; Samples.tree_single]
              [Samples.tree_a_variant; Samples.tree_single])
    as (Hadj & _ & Htrace); try reflexivity.
  - constructor; [|constructor; [apply same_contents_refl | constructor]].
    split_and!; [reflexivity | reflexivity |].
    intros p Hp. vm_compute in Hp.
    repeat (apply elem_of_cons in Hp as [->|Hp]);
      [| |by apply elem_of_nil in Hp]; split; reflexivity.
  - split; [exact Hadj | exact Htrace].
Defined.

(** ** The widest row and the mapped trees *)

Lemma foldr_max_ge (l : list nat) x : x ∈ l → x ≤ foldr Nat.max 0 l.
Proof.
  induction l as [|y l IH]; simpl; [by intros ?%elem_of_nil|].
  intros [->|Hin]%elem_of_cons; [lia|]. specialize (IH Hin). lia.
Qed.

Lemma foldr_max_le (l : list nat) n :
  (∀ x, x ∈ l → x ≤ n) → foldr Nat.max 0 l ≤ n.
Proof.
  induction l as [|y l IH]; simpl; intros Hall; [lia|].
  assert (y ≤ n) by (apply Hall; left).
  assert (foldr Nat.max 0 l ≤ n) by (apply IH; intros x Hx; apply Hall; by right).
  lia.
Qed.

Lemma mapped_trees_elem m trees t :
  t ∈ mapped_trees m trees
  ↔ ∃ i, trees !! i = Some t ∧ i ∈ (OrderedDict.keys m).*1.
Proof.
  unfold mapped_trees. rewrite list_elem_of_fmap. split.
  - intros ([i t'] & -> & [Hkey Hin]%list_elem_of_filter).
    apply list_elem_of_lookup in Hin as [j Hj].
    rewrite list_lookup_imap in Hj.
    destruct (trees !! j) as [t''|] eqn:Ht; simpl in Hj; [|done].
    injection Hj as <- <-. by exists j.
  - intros (i & Hi & Hkey). exists (i, t). split; [done|].
    apply list_elem_of_filter. split; [done|].
    apply list_elem_of_lookup. exists i. by rewrite list_lookup_imap, Hi.
Qed.

(** A tree is mapped exactly when it has a parent/child edge. *)
Lemma mapped_iff_edges asts i t :
  asts !! i = Some t →
  i ∈ (OrderedDict.keys (assign_ids [] (batch_endpoints asts))).*1
  ↔ adjacency_list t ≠ [].
Proof.
  intros Hi. unfold OrderedDict.keys. rewrite list_elem_of_fmap. split.
  - intros ([j n] & -> & Hk).
    apply (proj1 (assign_ids_keys (batch_endpoints asts) (j, n))) in Hk.
    apply batch_endpoints_from_elem in Hk as (j' & t' & Hj' & Hin).
    pose proof (edge_endpoints_fst _ _ _ Hin) as Hfst. simpl in Hfst, Hi.
    subst j'. simpl in Hin. assert (t' = t) as -> by congruence.
    intros Hnil. rewrite Hnil in Hin. by apply elem_of_nil in Hin.
  - intros Hne. destruct (adjacency_list t) as [|edge edges] eqn:Hedges;
      [done|].
    exists (i, node_id edge.1). split; [done|].
    apply assign_ids_keys, batch_endpoints_from_elem. exists i, t.
    split; [done|]. rewrite Hedges. left.
Qed.

(** C6: whenever [unpack_batch_encoding] returns on the mapping that
    [get_batched_adjacency_lists] built for the batch and on as many
    flattened vectors as that mapping has ids (which is what [forward]
    passes when the engine returns one vector per node), for trees that
    have at least one node and exactly one when they have no edge, the rows
    of the output tensor and of the mask are as long as the largest node
    count among the trees of which some node received a combined id; a
    single-node tree, which is never mapped, does not enter that maximum. *)
Theorem unpack_max_tree_size_of_mapped_trees {scalar : Type} (zero : scalar)
    dev flattened trees adj m inv out :
  get_batched_adjacency_lists dev trees = Ok (adj, m, inv) →
  Forall tree_well_formed trees →
  length flattened = length m →
  unpack_batch_encoding zero flattened trees m = Ok out →
  shaped (length trees) (spec_max_tree_size m trees)
    (batch_tree_node_encoding out)
  ∧ shaped (length trees) (spec_max_tree_size m trees)
      (batch_tree_node_masks out).
Proof.
  intros (_ & _ & Hm & _)%get_batched_adjacency_lists_Ok Hwf Hlen Hout.
  rewrite Forall_forall in Hwf.
  destruct (unpack_batch_encoding_rows _ _ _ _ _ Hout)
    as (n & index & gathered & Hmax & Hgather & Hg & Henc & Hrows).
  pose proof Hout as (n' & g' & Hmax' & _ & Hmasks & _)%unpack_batch_encoding_Ok.
  assert (n' = n) as -> by congruence.
  assert (spec_max_tree_size m trees = n) as ->.
  { pose proof (py_max_spec _ _ Hmax) as [Hin Hall].
    unfold spec_max_tree_size. apply Nat.le_antisymm.
    - apply foldr_max_le. intros x (t & -> & Ht)%list_elem_of_fmap.
      apply mapped_trees_elem in Ht as (i & Hi & _).
      apply Hall, list_elem_of_fmap. exists t. split; [done|].
      by eapply list_elem_of_lookup_2.
    - apply list_elem_of_fmap in Hin as (t0 & -> & Ht0).
      apply list_elem_of_lookup in Ht0 as [i0 Hi0].
      destruct (adjacency_list t0) as [|edge edges] eqn:Hedges.
      + (* the widest tree is unmapped: it has one node, and the gather of
           its padding shows that some other tree is mapped *)
        destruct (Hwf t0) as [_ Hone]; [by eapply list_elem_of_lookup_2|].
        rewrite (Hone Hedges) in *.
        destruct (Hrows i0) as (row & Hassign & Hrow & _);
          [by eapply lookup_lt_Some|].
        apply slice_assign_length in Hassign. simpl in Hassign.
        destruct row as [|c row]; [done|].
        unfold gather in Hgather. apply list_comp_Forall2 in Hgather.
        destruct (Forall2_lookup_l _ _ _ _ _ Hgather Hrow) as (grow & _ & Hc).
        simpl in Hc. inv_bind Hc. apply list_getitem_Ok in Ha.
        apply lookup_lt_Some in Ha. rewrite Hlen in Ha.
        destruct m as [|[[j nid] c'] m'] eqn:Hm'; [simpl in Ha; lia|].
        assert ((j, nid) ∈ batch_endpoints trees) as Hk.
        { apply (assign_ids_keys (batch_endpoints trees)). rewrite <- Hm.
          left. }
        apply batch_endpoints_from_elem in Hk as (j' & t' & Hj' & Hin').
        pose proof (edge_endpoints_fst _ _ _ Hin') as Hfst.
        simpl in Hfst. subst j'.
        assert (t' ∈ mapped_trees ((j, nid, c') :: m') trees) as Hmapped.
        { apply mapped_trees_elem. exists j. split; [done|]. left. }
        destruct (Hwf t') as [Hpos _]; [by eapply list_elem_of_lookup_2|].
        etrans; [exact Hpos|]. apply foldr_max_ge, list_elem_of_fmap.
        by exists t'.
      + apply foldr_max_ge, list_elem_of_fmap. exists t0. split; [done|].
        apply mapped_trees_elem. exists i0. split; [done|].
        rewrite Hm. apply (mapped_iff_edges trees i0 t0 Hi0).
        by rewrite Hedges. }
  split; [|done]. rewrite Henc.
  apply masked_fill_shaped; [done|]. by apply inverted_byte_mask_shaped.
Qed.

Lemma unpack_max_tree_size_of_mapped_trees_witness :
  shaped (length [Samples.tree_a; Samples.tree_single])
    (spec_max_tree_size Samples.mapping_a [Samples.tree_a; Samples.tree_single])
    [[[30; 31]; [10; 11]; [20; 21]]; [[0; 0]; [0; 0]; [0; 0]]]%Z
  ∧ shaped (length [Samples.tree_a; Samples.tree_single])
      (spec_max_tree_size Samples.mapping_a
         [Samples.tree_a; Samples.tree_single])
      [[1; 1; 1]; [0; 0; 0]]%Z.
Proof.
  apply (unpack_max_tree_size_of_mapped_trees 0%Z "cpu"
           [[30; 31]; [20; 21]; [10; 11]]%Z
           [Samples.tree_a; Samples.tree_single]
           Samples.relations_a Samples.mapping_a Samples.inverse_a
           {| batch_tree_node_encoding :=
                [[[30; 31]; [10; 11]; [20; 21]]; [[0; 0]; [0; 0]; [0; 0]]]%Z;
              batch_tree_node_masks := [[1; 1; 1]; [0; 0; 0]]%Z |}).
  - reflexivity.
  - repeat constructor; simpl; lia || done.
  - reflexivity.
  - reflexivity.
Defined.
